(** * AnimeHindiAPI: slug generation, candidate URLs, the interception scan
      and the [/api/video] endpoint

    A shallow embedding of [src/app.py] and [src/video.py].

    Conventions of the embedding.
    - A Python [str] is a Rocq [string]; the character [c] stands for the
      code point [N_of_ascii c], so the model covers the texts whose code
      points lie in U+0000..U+00FF.  The character tables below
      ([isspace], [isupper], [isalnum], ...) are the Unicode tables that
      CPython uses, cut down to that range.
    - A Python [dict] with string keys is a [gmap string value].
    - Code that calls the browser runs in a state-and-exception monad; the
      browser itself is an oracle ([world]) that says, for every call, what
      requests the page emits and whether the call raises. *)

From Stdlib Require Import Ascii String ZArith NArith Bool Lia.
From stdpp Require Import gmap strings list.

Local Open Scope N_scope.

(** ** Python's [str], [re] and [urllib.parse] primitives used by the code *)

Module Py.

Definition code (c : ascii) : N := N_of_ascii c.

Definition between (lo hi n : N) : bool := (lo <=? n) && (n <=? hi).

(** [str.isspace], which is also [\s] of [re] on [str] patterns and the set
    removed by [str.strip()]. *)
Definition isspace (c : ascii) : bool :=
  let n := code c in
  between 9 13 n || between 28 32 n || (n =? 133) || (n =? 160).

(** [str.isupper] of one character, for the code points U+0000..U+00FF only.
    Beyond them Unicode has upper-case letters that [lower] cannot change;
    see [Wide] for one. *)
Definition isupper (c : ascii) : bool :=
  let n := code c in
  between 65 90 n || (between 192 222 n && negb (n =? 215)).

Definition isascii (c : ascii) : bool := code c <? 128.

Definition isdigit_ascii (c : ascii) : bool := between 48 57 (code c).

Definition isalpha_ascii (c : ascii) : bool :=
  let n := code c in between 65 90 n || between 97 122 n.

(** [str.isalnum]: alphabetic, decimal, digit or numeric. *)
Definition isalnum (c : ascii) : bool :=
  let n := code c in
  between 48 57 n || between 65 90 n || between 97 122 n
  || (n =? 170) || (n =? 178) || (n =? 179) || (n =? 181) || (n =? 185)
  || (n =? 186) || between 188 190 n
  || between 192 214 n || between 216 246 n || between 248 255 n.

(** [\w] of [re]. *)
Definition isword (c : ascii) : bool := isalnum c || (code c =? 95).

Definition ishyphen (c : ascii) : bool := code c =? 45.

Definition lower_char (c : ascii) : ascii :=
  if isupper c then ascii_of_N (code c + 32) else c.

(** [s.lower()], for texts over U+0000..U+00FF only: there every upper-case
    character has a lower-case form in the same range. *)
Fixpoint lower (s : string) : string :=
  match s with
  | EmptyString => EmptyString
  | String c s' => String (lower_char c) (lower s')
  end.

Fixpoint all (p : ascii -> bool) (s : string) : bool :=
  match s with
  | EmptyString => true
  | String c s' => p c && all p s'
  end.

Definition is_empty (s : string) : bool :=
  match s with EmptyString => true | String _ _ => false end.

Definition first_char (s : string) : option ascii :=
  match s with
  | EmptyString => None
  | String c _ => Some c
  end.

Fixpoint last_char (s : string) : option ascii :=
  match s with
  | EmptyString => None
  | String c EmptyString => Some c
  | String _ s' => last_char s'
  end.

Fixpoint lstrip (p : ascii -> bool) (s : string) : string :=
  match s with
  | EmptyString => EmptyString
  | String c s' => if p c then lstrip p s' else s
  end.

Fixpoint rstrip (p : ascii -> bool) (s : string) : string :=
  match s with
  | EmptyString => EmptyString
  | String c s' =>
      let r := rstrip p s' in
      if is_empty r && p c then EmptyString else String c r
  end.

(** [s.strip()] is [strip isspace s]; [s.strip("-")] is [strip ishyphen s]. *)
Definition strip (p : ascii -> bool) (s : string) : string :=
  rstrip p (lstrip p s).

(** [re.sub] of a one-character class by the empty string: the characters
    of the class are deleted. *)
Fixpoint sub_delete (p : ascii -> bool) (s : string) : string :=
  match s with
  | EmptyString => EmptyString
  | String c s' => if p c then sub_delete p s' else String c (sub_delete p s')
  end.

(** [re.sub(r"C+", r, s)] for a one-character class [C]: every maximal run of
    characters of the class is replaced by [r].  [in_run] says that the
    previous character belonged to the run being replaced. *)
Fixpoint sub_runs_from (p : ascii -> bool) (r : string) (in_run : bool)
    (s : string) : string :=
  match s with
  | EmptyString => EmptyString
  | String c s' =>
      if p c then
        if in_run then sub_runs_from p r true s'
        else r +:+ sub_runs_from p r true s'
      else String c (sub_runs_from p r false s')
  end.

Definition sub_runs (p : ascii -> bool) (r : string) (s : string) : string :=
  sub_runs_from p r false s.

(** [urllib.parse.quote_plus(s)] with the default [safe=''].  The characters
    [A-Za-z0-9_.-~] are kept, a space becomes [+] and every other character is
    replaced by [%XX] for each byte of its UTF-8 encoding. *)
Definition always_safe (c : ascii) : bool :=
  let n := code c in
  isalpha_ascii c || isdigit_ascii c
  || (n =? 95) || (n =? 46) || (n =? 45) || (n =? 126).

Definition hex_digit (n : N) : ascii :=
  if n <? 10 then ascii_of_N (48 + n) else ascii_of_N (55 + n).

Definition percent (byte : N) : string :=
  String "%" (String (hex_digit (byte / 16)) (String (hex_digit (byte mod 16)) EmptyString)).

Definition utf8 (c : ascii) : list N :=
  let n := code c in
  if n <? 128 then [n] else [192 + n / 64; 128 + n mod 64].

Definition quote_char (c : ascii) : string :=
  if code c =? 32 then "+"
  else if always_safe c then String c EmptyString
  else foldr (fun b acc => percent b +:+ acc) EmptyString (utf8 c).

Fixpoint quote_plus (s : string) : string :=
  match s with
  | EmptyString => EmptyString
  | String c s' => quote_char c +:+ quote_plus s'
  end.

(** [needle in s] *)
Fixpoint startswith (needle s : string) : bool :=
  match needle, s with
  | EmptyString, _ => true
  | String _ _, EmptyString => false
  | String a needle', String b s' => Ascii.eqb a b && startswith needle' s'
  end.

Fixpoint contains (needle s : string) : bool :=
  startswith needle s ||
  match s with
  | EmptyString => false
  | String _ s' => contains needle s'
  end.

(** [re.compile(lit + "[A-Za-z0-9\-_]+", re.IGNORECASE).search(s)] for a
    literal [lit] without upper-case letters: the leftmost place where the
    literal matches up to case and is followed by at least one character of
    the class; the match is the literal's text as it stands in [s] followed
    by the longest run of class characters (group 0).  [None] is Python's
    [None]. *)
Definition url_class (c : ascii) : bool :=
  isalpha_ascii c || isdigit_ascii c || ishyphen c || (code c =? 95).

Fixpoint match_literal (lit s : string) : option (string * string) :=
  match lit, s with
  | EmptyString, _ => Some (EmptyString, s)
  | String _ _, EmptyString => None
  | String a lit', String b s' =>
      if Ascii.eqb a (lower_char b) then
        match match_literal lit' s' with
        | Some (m, rest) => Some (String b m, rest)
        | None => None
        end
      else None
  end.

Fixpoint take_while (p : ascii -> bool) (s : string) : string :=
  match s with
  | EmptyString => EmptyString
  | String c s' => if p c then String c (take_while p s') else EmptyString
  end.

Definition match_at (lit s : string) : option string :=
  match match_literal lit s with
  | Some (m, rest) =>
      let run := take_while url_class rest in
      if is_empty run then None else Some (m +:+ run)
  | None => None
  end.

Fixpoint search (lit s : string) : option string :=
  match match_at lit s with
  | Some m => Some m
  | None =>
      match s with
      | EmptyString => None
      | String _ s' => search lit s'
      end
  end.

(** [int(s)] for a [str]: [Some n] is the value, [None] is [ValueError].
    Blanks are stripped, one sign is allowed, and the digits may be grouped
    by single underscores.  [max_digits] is [sys.get_int_max_str_digits()]
    ([None] when the interpreter has no limit). *)
Definition int_space (c : ascii) : bool :=
  let n := code c in
  between 9 13 n || (n =? 32) || (n =? 133) || (n =? 160).

Inductive digits_state := AtStart | AfterDigit | AfterUnderscore.

Fixpoint parse_digits (st : digits_state) (acc : Z) (count : nat) (s : string)
    : option (Z * nat) :=
  match s with
  | EmptyString =>
      match st with AfterDigit => Some (acc, count) | _ => None end
  | String c s' =>
      if isdigit_ascii c then
        parse_digits AfterDigit (10 * acc + Z.of_N (code c - 48)) (S count) s'
      else if code c =? 95 then
        match st with
        | AfterDigit => parse_digits AfterUnderscore acc count s'
        | _ => None
        end
      else None
  end.

Definition within_limit (max_digits : option nat) (count : nat) : bool :=
  match max_digits with
  | Some m => (count <=? m)%nat
  | None => true
  end.

Definition int (max_digits : option nat) (s : string) : option Z :=
  let body := strip int_space s in
  let '(negative, digits) :=
    match body with
    | String c rest =>
        if code c =? 45 then (true, rest)
        else if code c =? 43 then (false, rest)
        else (false, body)
    | EmptyString => (false, body)
    end in
  match parse_digits AtStart 0 0 digits with
  | Some (n, count) =>
      if within_limit max_digits count
      then Some (if negative then (- n)%Z else n)
      else None
  | None => None
  end.

End Py.

(** ** Results, events and the browser oracle *)

(** The values stored in the result dictionaries. *)
Inductive value :=
| VBool (b : bool)
| VStr (s : string).

(** Python truth value of what the code tests with [if]. *)
Definition truthy_str (s : string) : bool := negb (Py.is_empty s).

Definition truthy_opt (o : option string) : bool :=
  match o with
  | Some s => truthy_str s
  | None => false
  end.

Definition truthy (v : value) : bool :=
  match v with
  | VBool b => b
  | VStr s => truthy_str s
  end.

Inductive engine := Firefox | Chromium.

(** What the program does to the outside, in order. *)
Inductive event :=
| EvFetch (animetitle season episode : string)
| EvStart
| EvLaunch (e : engine)
| EvNewContext (user_agent : string)
| EvNewPage
| EvOn
| EvRemoveListener
| EvGoto (url : string)
| EvWait (ms : Z)
| EvContextClose
| EvBrowserClose
| EvStop.

(** The browser and the interpreter seen from the program.  A call's answer
    is [None] when it returns and [Some msg] when it raises an [Exception]
    whose [str] is [msg].  A navigation is addressed by the number of
    [page.goto] calls made before it and by its URL; it answers with the URLs
    of the requests the page sends while the call runs, in order, and with
    how the call ends.  The pause that follows navigation number [n] is
    addressed by [n]. *)
Record world := {
  playwright_start : option string;
  launch : engine -> option string;
  new_context : string -> option string;
  new_page : option string;
  goto : nat -> string -> list string * option string;
  wait_for_timeout : nat -> list string * option string;
  context_close : option string;
  browser_close : option string;
  playwright_stop : option string;
  int_max_str_digits : option nat
}.

(** A line written by [print]: the [json.dumps] text of a dictionary, which
    stands here for its text, or a plain string. *)
Inductive printed :=
| PrintJson (result : gmap string value)
| PrintText (line : string).

(** ** A state-and-exception monad for the scan *)

Inductive outcome (A : Type) :=
| Return (a : A)
| Raise (msg : string).
Arguments Return {A} a.
Arguments Raise {A} msg.

(** [found] is the closure variable of [fetch_video_url]; [listening] says
    whether [on_request] is registered on the page. *)
Record scan_state := {
  found : option string;
  listening : bool;
  trace : list event
}.

Definition Eff (A : Type) : Type := scan_state -> outcome A * scan_state.

Definition ret {A} (a : A) : Eff A := fun st => (Return a, st).

Definition raise {A} (msg : string) : Eff A := fun st => (Raise msg, st).

Definition bind {A B} (m : Eff A) (k : A -> Eff B) : Eff B :=
  fun st =>
    match m st with
    | (Return a, st') => k a st'
    | (Raise msg, st') => (Raise msg, st')
    end.

Notation "x <~ m ;; k" := (bind m (fun x => k))
  (at level 100, m at next level, right associativity).
Notation "m ;;; k" := (bind m (fun _ => k))
  (at level 100, right associativity).

(** [try: body except Exception as e: handler(str(e))] *)
Definition try_except {A} (body : Eff A) (handler : string -> Eff A) : Eff A :=
  fun st =>
    match body st with
    | (Return a, st') => (Return a, st')
    | (Raise msg, st') => handler msg st'
    end.

(** [with enter as _: body]: the exit call runs on every way out of the body,
    and an exception of the exit call replaces the body's result. *)
Definition with_manager {A} (enter exit : Eff unit) (body : Eff A) : Eff A :=
  enter ;;;
  fun st =>
    match body st with
    | (r, st') =>
        match exit st' with
        | (Return _, st'') => (r, st'')
        | (Raise msg, st'') => (Raise msg, st'')
        end
    end.

Definition log (ev : event) : Eff unit :=
  fun st => (Return tt, {| found := found st; listening := listening st;
                           trace := trace st ++ [ev] |}).

Definition answer (r : option string) : Eff unit :=
  match r with
  | None => ret tt
  | Some msg => raise msg
  end.

(** A call to the browser that sends no request. *)
Definition call (ev : event) (r : option string) : Eff unit :=
  log ev ;;; answer r.

Definition get_found : Eff (option string) := fun st => (Return (found st), st).

Definition set_found (o : option string) : Eff unit :=
  fun st => (Return tt, {| found := o; listening := listening st;
                           trace := trace st |}).

Definition set_listening (b : bool) : Eff unit :=
  fun st => (Return tt, {| found := found st; listening := b;
                           trace := trace st |}).

(** The URLs the page was sent to, in order. *)
Definition navigated (tr : list event) : list string :=
  omap (fun ev => match ev with EvGoto u => Some u | _ => None end) tr.

(** The state in which [fetch_video_url] is entered. *)
Definition initial_state (animetitle season episode : string) : scan_state :=
  {| found := None; listening := false;
     trace := [EvFetch animetitle season episode] |}.

(** ** The scan, shared by the two files

    [fetch_video_url] of [src/app.py] and of [src/video.py] are the same text
    up to the browser engine and the identity string, and each file uses its
    own [VIDEO_RE], [make_slugs] and [make_candidate_urls]; these five are
    the variables of the section. *)

Section Scanner.

Variable w : world.
Variable browser_engine : engine.
Variable user_agent : string.
Variable VIDEO_RE_search : string -> option string.
Variable make_slugs : string -> list string.
Variable make_candidate_urls : string -> string -> string -> list string.

(** [on_request], the observer registered on the page. *)
Definition on_request (url : string) : Eff unit :=
  match VIDEO_RE_search url with
  | Some m => set_found (Some m) ;;; log EvRemoveListener ;;; set_listening false
  | None => ret tt
  end.

(** The page sends the requests [urls]; each one reaches [on_request] as long
    as it is registered. *)
Fixpoint emit (urls : list string) : Eff unit :=
  match urls with
  | [] => ret tt
  | url :: rest =>
      (fun st => if listening st then on_request url st else ret tt st) ;;;
      emit rest
  end.

(** [page.goto(url, wait_until="domcontentloaded", timeout=20000)] *)
Definition page_goto (url : string) : Eff unit :=
  fun st =>
    let '(requests, r) := goto w (length (navigated (trace st))) url in
    (log (EvGoto url) ;;; emit requests ;;; answer r) st.

(** [page.wait_for_timeout(ms)] *)
Definition page_wait_for_timeout (ms : Z) : Eff unit :=
  fun st =>
    let '(requests, r) := wait_for_timeout w (Nat.pred (length (navigated (trace st)))) in
    (log (EvWait ms) ;;; emit requests ;;; answer r) st.

(** [page.on("request", on_request)] *)
Definition page_on : Eff unit := log EvOn ;;; set_listening true.

(** [for url in candidates: if found: break; try: ... except Exception: continue] *)
Fixpoint candidate_loop (candidates : list string) : Eff unit :=
  match candidates with
  | [] => ret tt
  | url :: rest =>
      f <~ get_found ;;
      if truthy_opt f then ret tt
      else
        try_except
          (page_goto url ;;; page_wait_for_timeout 3000)
          (fun _ => ret tt) ;;;
        candidate_loop rest
  end.

(** [candidates = []; for s in slugs: candidates.extend(make_candidate_urls(s, season, episode))] *)
Definition candidates_of (animetitle season episode : string) : list string :=
  fold_left (fun candidates s => candidates ++ make_candidate_urls s season episode)
            (make_slugs animetitle) [].

Definition found_result (m : string) : gmap string value :=
  <["success" := VBool true]>
    (<["video_url" := VStr m]>
      (<["message" := VStr "Video URL found successfully"]> ∅)).

Definition not_found_result : gmap string value :=
  <["success" := VBool false]>
    (<["error" := VStr "No video URL found. Try different season/episode numbers."]>
      (<["message" := VStr "No video URL found"]> ∅)).

Definition error_result (msg : string) : gmap string value :=
  <["success" := VBool false]>
    (<["error" := VStr ("An error occurred: " +:+ msg)]>
      (<["message" := VStr "Failed to fetch video URL"]> ∅)).

(** The body of the [try] statement of [fetch_video_url]. *)
Definition scan (animetitle season episode : string) : Eff (gmap string value) :=
  let candidates := candidates_of animetitle season episode in
  with_manager (call EvStart (playwright_start w)) (call EvStop (playwright_stop w))
    (call (EvLaunch browser_engine) (launch w browser_engine) ;;;
     call (EvNewContext user_agent) (new_context w user_agent) ;;;
     call EvNewPage (new_page w) ;;;
     set_found None ;;;
     page_on ;;;
     candidate_loop candidates ;;;
     call EvContextClose (context_close w) ;;;
     call EvBrowserClose (browser_close w) ;;;
     f <~ get_found ;;
     match f with
     | Some m => if truthy_str m then ret (found_result m) else ret not_found_result
     | None => ret not_found_result
     end).

(** [fetch_video_url]: the [try] statement around [scan].  It gives the
    result dictionary and the events of the call. *)
Definition fetch_video_url_with (animetitle season episode : string)
    : gmap string value * list event :=
  match scan animetitle season episode (initial_state animetitle season episode) with
  | (Return result, st) => (result, trace st)
  | (Raise msg, st) => (error_result msg, trace st)
  end.

End Scanner.

(** ** [src/app.py] *)

Module App.

Definition make_slugs (animetitle : string) : list string :=
  let base := Py.lower (Py.strip Py.isspace animetitle) in
  let base := Py.sub_delete (fun c => negb (Py.isword c || Py.isspace c || Py.ishyphen c)) base in
  let base := Py.sub_runs Py.isspace "-" base in
  let base := Py.sub_runs Py.ishyphen "-" base in
  let base := Py.strip Py.ishyphen base in
  [base; Py.quote_plus base].

Definition make_candidate_urls (slug season episode : string) : list string :=
  [ "https://animedekho.co/epi/" +:+ slug +:+ "-" +:+ season +:+ "x" +:+ episode +:+ "/";
    "https://animedekho.co/episodes/" +:+ slug +:+ "-" +:+ season +:+ "x" +:+ episode +:+ "/";
    "https://animedekho.co/epi/" +:+ slug +:+ "/" +:+ season +:+ "x" +:+ episode +:+ "/";
    "https://animedekho.co/episodes/" +:+ slug +:+ "/" +:+ season +:+ "x" +:+ episode +:+ "/" ].

Definition VIDEO_RE_search (url : string) : option string :=
  Py.search "https://play.zephyrflick.top/video/" url.

Definition user_agent : string :=
  "Mozilla/5.0 (Windows NT 10.0; Win64; x64; rv:91.0) Gecko/20100101 Firefox/91.0".

Definition fetch_video_url (w : world) (animetitle season episode : string)
    : gmap string value * list event :=
  fetch_video_url_with w Firefox user_agent VIDEO_RE_search
    make_slugs make_candidate_urls animetitle season episode.

(** [request.args.get(key)]: the first value given for [key], if any. *)
Fixpoint args_get (key : string) (args : list (string * string)) : option string :=
  match args with
  | [] => None
  | (k, v) :: rest => if String.eqb k key then Some v else args_get key rest
  end.

Definition missing_parameters : gmap string value :=
  <["success" := VBool false]>
    (<["error" := VStr "Missing required parameters: title, season, episode"]>
      (<["message" := VStr "Please provide title, season, and episode as query parameters"]> ∅)).

Definition invalid_number : gmap string value :=
  <["success" := VBool false]>
    (<["error" := VStr "Invalid season or episode number"]>
      (<["message" := VStr "Season and episode must be valid numbers"]> ∅)).

(** The status chosen on the last line of [get_video_url] for a result whose
    ["success"] is false; [None] when [result.get("error", EmptyString)] is not a
    string, so that [in] raises. *)
Definition failure_status (result : gmap string value) : option Z :=
  match default (VStr EmptyString) (result !! "error") with
  | VStr err => Some (if Py.contains "No video URL found" err then 404 else 500)%Z
  | VBool _ => None
  end.

(** [get_video_url], the handler of [GET /api/video], on the parsed query
    [args].  It gives the JSON body with the status, or the exception that
    leaves the handler, and the events of the request. *)
Definition get_video_url (w : world) (args : list (string * string))
    : outcome (gmap string value * Z) * list event :=
  let animetitle := args_get "title" args in
  let season := args_get "season" args in
  let episode := args_get "episode" args in
  match animetitle, season, episode with
  | Some animetitle, Some season, Some episode =>
      if negb (truthy_str animetitle) || negb (truthy_str season)
         || negb (truthy_str episode)
      then (Return (missing_parameters, 400%Z), [])
      else
        match Py.int (int_max_str_digits w) season with
        | None => (Return (invalid_number, 400%Z), [])
        | Some _ =>
            match Py.int (int_max_str_digits w) episode with
            | None => (Return (invalid_number, 400%Z), [])
            | Some _ =>
                let '(result, tr) := fetch_video_url w animetitle season episode in
                match result !! "success" with
                | None => (Raise "'success'", tr)
                | Some ok =>
                    if truthy ok then (Return (result, 200%Z), tr)
                    else
                      match failure_status result with
                      | Some status => (Return (result, status), tr)
                      | None => (Raise "argument of type 'bool' is not iterable", tr)
                      end
                end
            end
        end
  | _, _, _ => (Return (missing_parameters, 400%Z), [])
  end.

End App.

(** ** [src/video.py] *)

Module Video.

Definition make_slugs (animetitle : string) : list string :=
  let base := Py.lower (Py.strip Py.isspace animetitle) in
  let base := Py.sub_delete (fun c => negb (Py.isword c || Py.isspace c || Py.ishyphen c)) base in
  let base := Py.sub_runs Py.isspace "-" base in
  let base := Py.sub_runs Py.ishyphen "-" base in
  let base := Py.strip Py.ishyphen base in
  [base; Py.quote_plus base].

Definition make_candidate_urls (slug season episode : string) : list string :=
  [ "https://animedekho.co/epi/" +:+ slug +:+ "-" +:+ season +:+ "x" +:+ episode +:+ "/";
    "https://animedekho.co/episodes/" +:+ slug +:+ "-" +:+ season +:+ "x" +:+ episode +:+ "/";
    "https://animedekho.co/epi/" +:+ slug +:+ "/" +:+ season +:+ "x" +:+ episode +:+ "/";
    "https://animedekho.co/episodes/" +:+ slug +:+ "/" +:+ season +:+ "x" +:+ episode +:+ "/" ].

Definition VIDEO_RE_search (url : string) : option string :=
  Py.search "https://play.zephyrflick.top/video/" url.

Definition user_agent : string := "Mozilla/5.0 (Windows NT 10.0; Win64; x64)".

Definition fetch_video_url (w : world) (animetitle season episode : string)
    : gmap string value * list event :=
  fetch_video_url_with w Chromium user_agent VIDEO_RE_search
    make_slugs make_candidate_urls animetitle season episode.

(** The program run as a script on [sys.argv]: what it prints and the events
    of the run. *)
Definition main (w : world) (argv : list string) : list printed * list event :=
  match argv with
  | [_; animetitle; season; episode] =>
      let '(result, tr) := fetch_video_url w animetitle season episode in
      ([PrintJson result], tr)
  | _ =>
      ([PrintText "Usage: python video.py 'anime title' season episode";
        PrintText "Example: python video.py 'shinchan' 1 1"], [])
  end.

End Video.

(** ** Vocabulary of the properties *)

(** The characters that can be left in the first slug of an ASCII title. *)
Definition slug_char (c : ascii) : bool :=
  Py.isascii c && negb (Py.isupper c) && (Py.isword c || Py.ishyphen c).

(** [str.isalpha] and [str.isdigit]. *)
Definition isalpha (c : ascii) : bool :=
  let n := Py.code c in
  Py.isalpha_ascii c || (n =? 170) || (n =? 181) || (n =? 186)
  || Py.between 192 214 n || Py.between 216 246 n || Py.between 248 255 n.

Definition isdigit (c : ascii) : bool :=
  let n := Py.code c in
  Py.isdigit_ascii c || (n =? 178) || (n =? 179) || (n =? 185).

(** A title made of letters, digits, spaces and hyphens only. *)
Definition title_char (c : ascii) : bool :=
  isalpha c || isdigit c || Py.isspace c || Py.ishyphen c.

(** The four URL shapes in the words of the specification: a path prefix
    ([epi] or [episodes]) and a join between the slug and [<s>x<e>]. *)
Definition url_shape (slug season episode : string) (shape : string * string) : string :=
  "https://animedekho.co/" +:+ shape.1 +:+ "/" +:+ slug +:+ shape.2
    +:+ season +:+ "x" +:+ episode +:+ "/".

Definition url_shapes : list (string * string) :=
  [("epi", "-"); ("episodes", "-"); ("epi", "/"); ("episodes", "/")].

(** The match the observer keeps when the page sends [urls] in order. *)
Fixpoint first_match (search : string -> option string) (urls : list string)
    : option string :=
  match urls with
  | [] => None
  | url :: rest =>
      match search url with
      | Some m => Some m
      | None => first_match search rest
      end
  end.

(** The state the observer leaves after the page has sent [urls]. *)
Definition after_requests (search : string -> option string)
    (urls : list string) (st : scan_state) : scan_state :=
  if listening st then
    match first_match search urls with
    | Some m => {| found := Some m; listening := false;
                   trace := trace st ++ [EvRemoveListener] |}
    | None => st
    end
  else st.

(** The requests the page sends while candidate number [n] is processed:
    those of [page.goto] and, when it returns, those of the pause. *)
Definition observed (w : world) (n : nat) (url : string) : list string :=
  match goto w n url with
  | (requests, None) => requests ++ (wait_for_timeout w n).1
  | (requests, Some _) => requests
  end.

(** The observer captures a match while candidate number [n] is processed. *)
Definition captures (w : world) (search : string -> option string)
    (n : nat) (url : string) : bool :=
  match first_match search (observed w n url) with
  | Some _ => true
  | None => false
  end.

(** What the candidate loop is expected to do from navigation number [n] on:
    the URLs it visits and the match it ends with. *)
Fixpoint loop_outcome (w : world) (search : string -> option string)
    (n : nat) (candidates : list string) : list string * option string :=
  match candidates with
  | [] => ([], None)
  | url :: rest =>
      match first_match search (observed w n url) with
      | Some m => ([url], Some m)
      | None =>
          let '(visited, f) := loop_outcome w search (S n) rest in
          (url :: visited, f)
      end
  end.

(** The answers of the seven browser calls made outside the candidate loop,
    in program order. *)
Definition scan_level_answers (w : world) (e : engine) (user_agent : string)
    : list (option string) :=
  [ playwright_start w; launch w e; new_context w user_agent; new_page w;
    context_close w; browser_close w; playwright_stop w ].

(** A result is fully populated: [success] is a Boolean, a success carries
    [video_url] and no [error], a failure carries [error] and no
    [video_url]. *)
Definition fully_populated (result : gmap string value) : Prop :=
  exists ok : bool,
    result !! "success" = Some (VBool ok) /\
    if ok
    then is_Some (result !! "video_url") /\ result !! "error" = None
    else is_Some (result !! "error") /\ result !! "video_url" = None.

(** The pages visited are the first candidates in order, at most [k + 1] of
    them, so that no candidate after number [k] has a navigation. *)
Definition stops_by (candidates : list string) (k : nat) (visited : list string) : Prop :=
  visited `prefix_of` candidates /\
  (length visited <= S k)%nat /\
  (forall j, (k < j)%nat -> visited !! j = None).

(** No event at all: neither [fetch_video_url] nor the browser was called. *)
Definition scanner_not_invoked (tr : list event) : Prop := tr = [].

(** A query parameter parses as an integer. *)
Definition parses (w : world) (o : option string) : bool :=
  match o with
  | Some s => bool_decide (is_Some (Py.int (int_max_str_digits w) s))
  | None => false
  end.

(** The three parameters are present and not empty, and season and episode
    are integers: the request reaches [fetch_video_url]. *)
Definition well_formed_query (w : world) (args : list (string * string))
    (animetitle season episode : string) : Prop :=
  App.args_get "title" args = Some animetitle /\
  App.args_get "season" args = Some season /\
  App.args_get "episode" args = Some episode /\
  truthy_str animetitle = true /\ truthy_str season = true /\
  truthy_str episode = true /\
  parses w (Some season) = true /\ parses w (Some episode) = true.

(** The body of the [try] statement of [fetch_video_url] in [src/app.py]
    raises an exception whose text is [msg]. *)
Definition app_scan_raises (w : world) (animetitle season episode msg : string) : Prop :=
  exists st',
    scan w Firefox App.user_agent App.VIDEO_RE_search App.make_slugs
         App.make_candidate_urls animetitle season episode
         (initial_state animetitle season episode) = (Raise msg, st').

(** Worlds used as examples. *)
Definition calm_world : world :=
  {| playwright_start := None;
     launch := fun _ => None;
     new_context := fun _ => None;
     new_page := None;
     goto := fun _ _ => (["https://animedekho.co/favicon.ico"], None);
     wait_for_timeout := fun _ => ([], None);
     context_close := None;
     browser_close := None;
     playwright_stop := None;
     int_max_str_digits := Some 4300%nat |}.

(** The third candidate's page asks the video host for a stream during the
    pause; the second navigation times out. *)
Definition third_candidate_world : world :=
  {| playwright_start := None;
     launch := fun _ => None;
     new_context := fun _ => None;
     new_page := None;
     goto := fun n _ =>
       if (n =? 1)%nat then ([], Some "Timeout 20000ms exceeded.")
       else (["https://animedekho.co/favicon.ico"], None);
     wait_for_timeout := fun n =>
       if (n =? 2)%nat
       then (["https://play.zephyrflick.top/video/abc123?autoplay=1"], None)
       else ([], None);
     context_close := None;
     browser_close := None;
     playwright_stop := None;
     int_max_str_digits := Some 4300%nat |}.

(** The browser cannot be launched, with the given text of the exception. *)
Definition launch_failure_world (msg : string) : world :=
  {| playwright_start := None;
     launch := fun _ => Some msg;
     new_context := fun _ => None;
     new_page := None;
     goto := fun _ _ => ([], None);
     wait_for_timeout := fun _ => ([], None);
     context_close := None;
     browser_close := None;
     playwright_stop := None;
     int_max_str_digits := Some 4300%nat |}.

(** The text of a launch failure when the browsers are kept in a directory
    whose name happens to contain the not-found phrase. *)
Definition missing_browser_text : string :=
  "BrowserType.launch: Executable doesn't exist at /srv/No video URL found/firefox-1429/firefox/firefox".

Definition naruto_query : list (string * string) :=
  [("title", "naruto"); ("season", "1"); ("episode", "5")].

(** Case analysis on the 256 characters. *)
Ltac each_char c :=
  destruct c as [[] [] [] [] [] [] [] []]; vm_compute; try reflexivity; try discriminate.

(** Some character of [s] satisfies [p]. *)
Fixpoint any (p : ascii -> bool) (s : string) : bool :=
  match s with
  | EmptyString => false
  | String c s' => p c || any p s'
  end.

(** No two neighbouring characters of [s] both satisfy [p]. *)
Fixpoint no_adjacent (p : ascii -> bool) (s : string) : bool :=
  match s with
  | EmptyString => true
  | String c s' =>
      negb (p c && match Py.first_char s' with Some d => p d | None => false end)
      && no_adjacent p s'
  end.

(** The characters [quote_plus] can produce for a text without spaces. *)
Definition quoted_char (c : ascii) : bool :=
  Py.always_safe c || (Py.code c =? 37).

(** The events of the candidate loop. *)
Definition is_loop_event (ev : event) : bool :=
  match ev with
  | EvGoto _ | EvWait _ | EvRemoveListener => true
  | _ => false
  end.

(** A computation that always ends and only adds events of the candidate
    loop to the trace. *)
Definition only_loop_events {A} (m : Eff A) : Prop :=
  forall st, exists r st' extra,
    m st = (r, st') /\
    trace st' = trace st ++ extra /\
    forallb is_loop_event extra = true.

(** The first exception among the answers of consecutive calls. *)
Fixpoint first_error (answers : list (option string)) : option string :=
  match answers with
  | [] => None
  | Some msg :: _ => Some msg
  | None :: rest => first_error rest
  end.

(** What the body of the [try] statement is expected to give when the
    candidate loop ends with [f] in [found]: an exception of the driver's
    start or stop, else the first exception of the calls in between, else
    the result dictionary. *)
Definition scan_result_of (w : world) (e : engine) (user_agent : string)
    (f : option string) : outcome (gmap string value) :=
  match playwright_start w with
  | Some msg => Raise msg
  | None =>
      match playwright_stop w with
      | Some msg => Raise msg
      | None =>
          match first_error [launch w e; new_context w user_agent; new_page w;
                             context_close w; browser_close w] with
          | Some msg => Raise msg
          | None => Return match f with
                           | Some m => found_result m
                           | None => not_found_result
                           end
          end
      end
  end.

(** The events the body of the [try] statement is expected to add, [loop]
    being those of the candidate loop. *)
Definition scan_events (w : world) (e : engine) (user_agent : string)
    (loop : list event) : list event :=
  EvStart ::
  match playwright_start w with
  | Some _ => []
  | None =>
      (EvLaunch e ::
       match launch w e with
       | Some _ => []
       | None =>
           EvNewContext user_agent ::
           match new_context w user_agent with
           | Some _ => []
           | None =>
               EvNewPage ::
               match new_page w with
               | Some _ => []
               | None =>
                   EvOn :: loop ++
                   EvContextClose ::
                   match context_close w with
                   | Some _ => []
                   | None => [EvBrowserClose]
                   end
               end
           end
       end) ++ [EvStop]
  end.

(** The four calls before the candidate loop return. *)
Definition loop_reached (w : world) (e : engine) (user_agent : string) : Prop :=
  playwright_start w = None /\ launch w e = None /\
  new_context w user_agent = None /\ new_page w = None.

(** What is raised while the browser is being released after the loop: the
    driver's stop comes last and wins. *)
Definition teardown_error (w : world) : option string :=
  match playwright_stop w with
  | Some msg => Some msg
  | None => first_error [context_close w; browser_close w]
  end.

(** Every navigation fails at once. *)
Definition unreachable_site_world : world :=
  {| playwright_start := None;
     launch := fun _ => None;
     new_context := fun _ => None;
     new_page := None;
     goto := fun _ _ => ([], Some "Page.goto: net::ERR_NAME_NOT_RESOLVED");
     wait_for_timeout := fun _ => ([], None);
     context_close := None;
     browser_close := None;
     playwright_stop := None;
     int_max_str_digits := Some 4300%nat |}.

(** The third candidate's page asks for the stream, as in
    [third_candidate_world], but closing the browser fails afterwards. *)
Definition close_failure_world : world :=
  {| playwright_start := None;
     launch := fun _ => None;
     new_context := fun _ => None;
     new_page := None;
     goto := goto third_candidate_world;
     wait_for_timeout := wait_for_timeout third_candidate_world;
     context_close := None;
     browser_close := Some "Browser.close: Connection closed";
     playwright_stop := None;
     int_max_str_digits := Some 4300%nat |}.

(** ** [make_slugs] on a title with a letter beyond U+00FF

    Unicode has upper-case letters (category Lu) that have no lower-case
    form; [str.lower()] leaves them as they are.  One of them is U+03D2,
    GREEK UPSILON WITH HOOK SYMBOL.  The alphabet below adds it to the code
    points U+0000..U+00FF; on U+03D2 CPython answers: [isupper], [isalpha]
    and [isalnum] true, [isspace] and [isdigit] false, [lower()] the
    character itself, UTF-8 bytes CF 92.  The functions are those of [Py]
    on lists of such code points, and [make_slugs] is the text of the two
    source files once more. *)

Module Wide.

Inductive codepoint :=
| Low (c : ascii)
| UpsilonHook.

Definition of_string (s : string) : list codepoint :=
  map Low (list_ascii_of_string s).

Definition isspace (c : codepoint) : bool :=
  match c with Low a => Py.isspace a | UpsilonHook => false end.

Definition isupper (c : codepoint) : bool :=
  match c with Low a => Py.isupper a | UpsilonHook => true end.

Definition isword (c : codepoint) : bool :=
  match c with Low a => Py.isword a | UpsilonHook => true end.

Definition ishyphen (c : codepoint) : bool :=
  match c with Low a => Py.ishyphen a | UpsilonHook => false end.

(** A letter, a digit, a space or a hyphen. *)
Definition title_char (c : codepoint) : bool :=
  match c with Low a => title_char a | UpsilonHook => true end.

Definition lower_char (c : codepoint) : codepoint :=
  match c with Low a => Low (Py.lower_char a) | UpsilonHook => UpsilonHook end.

Definition lower (s : list codepoint) : list codepoint := map lower_char s.

Definition is_empty (s : list codepoint) : bool :=
  match s with [] => true | _ :: _ => false end.

Fixpoint lstrip (p : codepoint -> bool) (s : list codepoint) : list codepoint :=
  match s with
  | [] => []
  | c :: s' => if p c then lstrip p s' else s
  end.

Fixpoint rstrip (p : codepoint -> bool) (s : list codepoint) : list codepoint :=
  match s with
  | [] => []
  | c :: s' =>
      let r := rstrip p s' in
      if is_empty r && p c then [] else c :: r
  end.

Definition strip (p : codepoint -> bool) (s : list codepoint) : list codepoint :=
  rstrip p (lstrip p s).

Fixpoint sub_delete (p : codepoint -> bool) (s : list codepoint) : list codepoint :=
  match s with
  | [] => []
  | c :: s' => if p c then sub_delete p s' else c :: sub_delete p s'
  end.

Fixpoint sub_runs_from (p : codepoint -> bool) (r : list codepoint)
    (in_run : bool) (s : list codepoint) : list codepoint :=
  match s with
  | [] => []
  | c :: s' =>
      if p c then
        if in_run then sub_runs_from p r true s'
        else r ++ sub_runs_from p r true s'
      else c :: sub_runs_from p r false s'
  end.

Definition sub_runs (p : codepoint -> bool) (r s : list codepoint) : list codepoint :=
  sub_runs_from p r false s.

Definition utf8 (c : codepoint) : list N :=
  match c with Low a => Py.utf8 a | UpsilonHook => [207; 146] end.

Definition quote_char (c : codepoint) : list codepoint :=
  match c with
  | Low a => of_string (Py.quote_char a)
  | UpsilonHook =>
      of_string (foldr (fun b acc => Py.percent b +:+ acc) EmptyString (utf8 c))
  end.

Fixpoint quote_plus (s : list codepoint) : list codepoint :=
  match s with
  | [] => []
  | c :: s' => quote_char c ++ quote_plus s'
  end.

Definition make_slugs (animetitle : list codepoint) : list (list codepoint) :=
  let base := lower (strip isspace animetitle) in
  let base := sub_delete (fun c => negb (isword c || isspace c || ishyphen c)) base in
  let base := sub_runs isspace (of_string "-") base in
  let base := sub_runs ishyphen (of_string "-") base in
  let base := strip ishyphen base in
  [base; quote_plus base].

End Wide.

(** * Properties *)

(** ** The model on the examples of the specification *)

Example make_slugs_shinchan :
  App.make_slugs "Shinchan!! 2024" = ["shinchan-2024"; "shinchan-2024"].
Proof. reflexivity. Qed.

Example make_slugs_one_piece :
  App.make_slugs "One  Piece" !! 0%nat = Some "one-piece".
Proof. reflexivity. Qed.

(** [make_slugs("Pokémon XY")], the title written with its code points:
    the second slug escapes the two bytes of U+00E9. *)
Example make_slugs_latin1 :
  App.make_slugs ("Pok" +:+ String (ascii_of_N 233) "mon XY") =
    [ "pok" +:+ String (ascii_of_N 233) "mon-xy"; "pok%C3%A9mon-xy" ].
Proof. reflexivity. Qed.

Example video_re_leftmost_longest :
  App.VIDEO_RE_search
    "GET HTTPS://Play.ZephyrFlick.top/video/Ab-9_z?x=https://play.zephyrflick.top/video/q"
  = Some "HTTPS://Play.ZephyrFlick.top/video/Ab-9_z".
Proof. reflexivity. Qed.

Example video_re_needs_an_id :
  App.VIDEO_RE_search "https://play.zephyrflick.top/video/" = None.
Proof. reflexivity. Qed.

Example int_examples :
  map (Py.int (Some 4300%nat)) [" 12 "; "+5"; "-5"; "1_000"; "007"; "abc"; "1__0"; "5.0"; "+ 5"]
  = [Some 12%Z; Some 5%Z; Some (-5)%Z; Some 1000%Z; Some 7%Z; None; None; None; None].
Proof. reflexivity. Qed.

(** ** Facts about the string primitives *)

Section StringFacts.

Variables p q : ascii -> bool.

Lemma all_impl (s : string) :
  (forall c, p c = true -> q c = true) -> Py.all p s = true -> Py.all q s = true.
Proof.
  intros Hpq. induction s as [|c s IH]; simpl; [reflexivity|].
  rewrite !andb_true_iff. intros [Hc Hs]. split; [apply Hpq, Hc | apply IH, Hs].
Qed.

Lemma all_append (s t : string) :
  Py.all q (s +:+ t) = Py.all q s && Py.all q t.
Proof.
  induction s as [|c s IH]; simpl; [reflexivity|].
  rewrite IH. apply andb_assoc.
Qed.

Lemma all_lstrip (s : string) :
  Py.all q s = true -> Py.all q (Py.lstrip p s) = true.
Proof.
  induction s as [|c s IH]; simpl; [reflexivity|].
  intros H. destruct (p c); [|exact H].
  apply andb_true_iff in H. apply IH, H.
Qed.

Lemma all_rstrip (s : string) :
  Py.all q s = true -> Py.all q (Py.rstrip p s) = true.
Proof.
  induction s as [|c s IH]; simpl; [reflexivity|].
  intros H. apply andb_true_iff in H. destruct H as [Hc Hs].
  destruct (Py.is_empty (Py.rstrip p s) && p c); simpl; [reflexivity|].
  rewrite Hc. apply IH, Hs.
Qed.

Lemma all_strip (s : string) :
  Py.all q s = true -> Py.all q (Py.strip p s) = true.
Proof. intros H. unfold Py.strip. apply all_rstrip, all_lstrip, H. Qed.

Lemma all_sub_delete (s : string) :
  Py.all q s = true ->
  Py.all (fun c => q c && negb (p c)) (Py.sub_delete p s) = true.
Proof.
  induction s as [|c s IH]; simpl; [reflexivity|].
  intros H. apply andb_true_iff in H. destruct H as [Hc Hs].
  destruct (p c) eqn:Hp; simpl; [apply IH, Hs|].
  rewrite Hc, Hp. simpl. apply IH, Hs.
Qed.

(** Replacing the runs of [p] by [r] leaves the characters outside [p] and
    those of [r]. *)
Lemma all_sub_runs_from (r : string) (in_run : bool) (s : string) :
  Py.all q r = true ->
  Py.all (fun c => p c || q c) s = true ->
  Py.all q (Py.sub_runs_from p r in_run s) = true.
Proof.
  intros Hr. revert in_run.
  induction s as [|c s IH]; intros in_run; simpl; [reflexivity|].
  intros H. apply andb_true_iff in H. destruct H as [Hc Hs].
  destruct (p c) eqn:Hp.
  - destruct in_run; [apply IH, Hs|].
    rewrite all_append, Hr. simpl. apply IH, Hs.
  - simpl in Hc. simpl. rewrite Hc. simpl. apply IH, Hs.
Qed.

(** What is left of a string after [lstrip] does not start with a stripped
    character, and what is left after [rstrip] does not end with one. *)
Lemma first_char_lstrip (s : string) (c : ascii) :
  Py.first_char (Py.lstrip p s) = Some c -> p c = false.
Proof.
  induction s as [|a s IH]; simpl; [discriminate|].
  destruct (p a) eqn:Hp; [exact IH|].
  simpl. intros [= <-]. exact Hp.
Qed.

Lemma first_char_rstrip (s : string) (c : ascii) :
  Py.first_char (Py.rstrip p s) = Some c -> Py.first_char s = Some c.
Proof.
  destruct s as [|a s]; simpl; [discriminate|].
  destruct (Py.is_empty (Py.rstrip p s) && p a); simpl; [discriminate|].
  exact (fun H => H).
Qed.

Lemma last_char_rstrip (s : string) (c : ascii) :
  Py.last_char (Py.rstrip p s) = Some c -> p c = false.
Proof.
  induction s as [|a s IH]; simpl; [discriminate|].
  destruct (Py.rstrip p s) as [|b r] eqn:Hr; simpl.
  - destruct (p a) eqn:Hp; simpl; [discriminate|].
    intros [= <-]. exact Hp.
  - exact IH.
Qed.

Lemma first_char_strip (s : string) (c : ascii) :
  Py.first_char (Py.strip p s) = Some c -> p c = false.
Proof.
  unfold Py.strip. intros H.
  apply first_char_rstrip in H. revert H. apply first_char_lstrip.
Qed.

Lemma last_char_strip (s : string) (c : ascii) :
  Py.last_char (Py.strip p s) = Some c -> p c = false.
Proof. unfold Py.strip. apply last_char_rstrip. Qed.

End StringFacts.

Lemma all_sub_runs (p q : ascii -> bool) (r s : string) :
  Py.all q r = true -> Py.all q s = true -> Py.all q (Py.sub_runs p r s) = true.
Proof.
  intros Hr Hs. apply all_sub_runs_from; [exact Hr|].
  revert Hs. apply all_impl. intros c ->. apply orb_true_r.
Qed.

Lemma isupper_lower_char (c : ascii) : Py.isupper (Py.lower_char c) = false.
Proof. each_char c. Qed.

Lemma lower_char_fixed (c : ascii) : Py.isupper c = false -> Py.lower_char c = c.
Proof. unfold Py.lower_char. intros ->. reflexivity. Qed.

Lemma isascii_lower_char (c : ascii) :
  Py.isascii c = true -> Py.isascii (Py.lower_char c) = true.
Proof. each_char c. Qed.

Lemma all_lower_not_upper (s : string) :
  Py.all (fun c => negb (Py.isupper c)) (Py.lower s) = true.
Proof.
  induction s as [|c s IH]; simpl; [reflexivity|].
  rewrite isupper_lower_char, IH. reflexivity.
Qed.

Lemma lower_fixed (s : string) :
  Py.all (fun c => negb (Py.isupper c)) s = true -> Py.lower s = s.
Proof.
  induction s as [|c s IH]; simpl; [reflexivity|].
  intros H. apply andb_true_iff in H. destruct H as [Hc Hs].
  rewrite lower_char_fixed, IH; auto using negb_true_iff.
  now apply negb_true_iff.
Qed.

(** ** The slug of a title *)

Lemma slug_char_quote (c : ascii) :
  slug_char c = true -> Py.quote_char c = String c EmptyString.
Proof. each_char c. Qed.

Lemma slug_char_safe (c : ascii) : slug_char c = true -> Py.always_safe c = true.
Proof. each_char c. Qed.

Lemma quote_plus_slug (s : string) :
  Py.all slug_char s = true -> Py.quote_plus s = s.
Proof.
  induction s as [|c s IH]; simpl; [reflexivity|].
  intros H. apply andb_true_iff in H. destruct H as [Hc Hs].
  rewrite (slug_char_quote c Hc), (IH Hs). reflexivity.
Qed.

(** Everything the later theorems need about the first slug, in one place:
    both files compute [[base; quote_plus base]] for the same [base]. *)
Lemma make_slugs_base (title : string) :
  exists base,
    App.make_slugs title = [base; Py.quote_plus base] /\
    Video.make_slugs title = [base; Py.quote_plus base] /\
    Py.all (fun c => negb (Py.isupper c)) base = true /\
    Py.all (fun c => negb (Py.isspace c)) base = true /\
    (forall c, Py.first_char base = Some c -> Py.ishyphen c = false) /\
    (forall c, Py.last_char base = Some c -> Py.ishyphen c = false) /\
    (Py.all Py.isascii title = true -> Py.all slug_char base = true).
Proof.
  eexists. split; [reflexivity|]. split; [reflexivity|].
  split; [|split; [|split; [|split]]].
  - apply all_strip, all_sub_runs; [reflexivity|].
    apply all_sub_runs; [reflexivity|].
    eapply all_impl; [|apply all_sub_delete, all_lower_not_upper].
    intros c Hc. apply andb_true_iff in Hc. apply Hc.
  - apply all_strip, all_sub_runs; [reflexivity|].
    apply all_sub_runs_from; [reflexivity|].
    generalize (Py.sub_delete
      (fun c => negb (Py.isword c || Py.isspace c || Py.ishyphen c))
      (Py.lower (Py.strip Py.isspace title))).
    intros s. induction s as [|c s IH]; simpl; [reflexivity|].
    rewrite IH, orb_negb_r. reflexivity.
  - intros c. apply first_char_strip.
  - intros c. apply last_char_strip.
  - intros Hascii.
    apply all_strip, all_sub_runs; [reflexivity|].
    apply all_sub_runs_from; [reflexivity|].
    apply all_impl with
      (p := fun c => (Py.isascii c && negb (Py.isupper c))
                     && negb (negb (Py.isword c || Py.isspace c || Py.ishyphen c))).
    + intros c. unfold slug_char.
      destruct (Py.isascii c), (Py.isupper c), (Py.isword c), (Py.isspace c),
        (Py.ishyphen c); simpl; intros H; first [reflexivity | discriminate H].
    + apply all_sub_delete with (q := fun c => Py.isascii c && negb (Py.isupper c)).
      assert (H : Py.all Py.isascii (Py.strip Py.isspace title) = true)
        by (apply all_strip, Hascii).
      revert H. generalize (Py.strip Py.isspace title).
      intros s. induction s as [|c s IH]; simpl; [reflexivity|].
      intros H. apply andb_true_iff in H. destruct H as [Hc Hs].
      rewrite (isascii_lower_char c Hc), isupper_lower_char, (IH Hs).
      reflexivity.
Qed.

(** ** Claims about the pure helpers *)

(** C5.  [make_candidate_urls("naruto", "1", "5")] is exactly the list of
    four URLs [epi/naruto-1x5/], [episodes/naruto-1x5/], [epi/naruto/1x5/],
    [episodes/naruto/1x5/] under [https://animedekho.co/], in this order:
    the two path prefixes with the hyphen join, then with the slash join;
    every one contains [naruto] and [1x5]. *)
Theorem candidate_urls_naruto :
  App.make_candidate_urls "naruto" "1" "5" =
    [ "https://animedekho.co/epi/naruto-1x5/";
      "https://animedekho.co/episodes/naruto-1x5/";
      "https://animedekho.co/epi/naruto/1x5/";
      "https://animedekho.co/episodes/naruto/1x5/" ] /\
  App.make_candidate_urls "naruto" "1" "5" = map (url_shape "naruto" "1" "5") url_shapes /\
  length (App.make_candidate_urls "naruto" "1" "5") = 4%nat /\
  Forall (fun url => Py.contains "naruto" url = true /\ Py.contains "1x5" url = true)
         (App.make_candidate_urls "naruto" "1" "5").
Proof.
  repeat split; try reflexivity.
  repeat constructor.
Qed.



(** C8.  The helpers written twice are the same functions: [make_slugs] of
    [src/app.py] and of [src/video.py] return the same list on every title,
    and so do the two [make_candidate_urls] on every slug, season and
    episode. *)
Theorem helpers_agree :
  (forall animetitle, App.make_slugs animetitle = Video.make_slugs animetitle) /\
  (forall slug season episode,
     App.make_candidate_urls slug season episode
     = Video.make_candidate_urls slug season episode).
Proof. split; intros; reflexivity. Qed.

Lemma length_remove_dups_twice (l : list string) :
  (length (remove_dups (l ++ l)) <= length l)%nat.
Proof.
  apply submseteq_length, NoDup_submseteq; [apply NoDup_remove_dups|].
  intros x Hx. apply elem_of_remove_dups, elem_of_app in Hx. tauto.
Qed.

(** C9.  For an ASCII title the two elements of [make_slugs(title)] are the
    same string, so the eight candidates of [fetch_video_url] are four URLs
    followed by the same four URLs: candidate [i + 4] is candidate [i], and
    at most four of them are distinct. *)
Theorem ascii_title_duplicate_candidates (title season episode : string) :
  Py.all Py.isascii title = true ->
  let candidates :=
    candidates_of App.make_slugs App.make_candidate_urls title season episode in
  exists slug,
    App.make_slugs title = [slug; slug] /\
    Py.all Py.always_safe slug = true /\
    candidates = App.make_candidate_urls slug season episode
                 ++ App.make_candidate_urls slug season episode /\
    length candidates = 8%nat /\
    (forall i, (i < 4)%nat -> candidates !! (i + 4)%nat = candidates !! i) /\
    (length (remove_dups candidates) <= 4)%nat.
Proof.
  intros Hascii candidates.
  destruct (make_slugs_base title) as (base & Happ & _ & _ & _ & _ & _ & Hsafe).
  specialize (Hsafe Hascii).
  rewrite (quote_plus_slug base Hsafe) in Happ.
  assert (Hc : candidates = App.make_candidate_urls base season episode
                            ++ App.make_candidate_urls base season episode).
  { unfold candidates, candidates_of. rewrite Happ. reflexivity. }
  exists base. split; [exact Happ|].
  split; [revert Hsafe; apply all_impl, slug_char_safe|]. split; [exact Hc|].
  rewrite Hc. split; [reflexivity|]. split.
  - intros i Hi.
    rewrite lookup_app_r by (simpl; lia).
    rewrite lookup_app_l by (simpl; lia).
    f_equal. simpl. lia.
  - apply (length_remove_dups_twice (App.make_candidate_urls base season episode)).
Qed.

Lemma ascii_title_duplicate_candidates_witness :
  Py.all Py.isascii "Shinchan!! 2024" = true /\
  let candidates :=
    candidates_of App.make_slugs App.make_candidate_urls "Shinchan!! 2024" "1" "5" in
  exists slug,
    App.make_slugs "Shinchan!! 2024" = [slug; slug] /\
    Py.all Py.always_safe slug = true /\
    candidates = App.make_candidate_urls slug "1" "5"
                 ++ App.make_candidate_urls slug "1" "5" /\
    length candidates = 8%nat /\
    (forall i, (i < 4)%nat -> candidates !! (i + 4)%nat = candidates !! i) /\
    (length (remove_dups candidates) <= 4)%nat.
Proof.
  split; [reflexivity|].
  apply (ascii_title_duplicate_candidates "Shinchan!! 2024" "1" "5"). reflexivity.
Defined.

(** ** The scan *)

Lemma navigated_snoc (tr : list event) (ev : event) :
  navigated (tr ++ [ev]) =
  navigated tr ++ match ev with EvGoto url => [url] | _ => [] end.
Proof.
  unfold navigated. rewrite omap_app. f_equal. destruct ev; reflexivity.
Qed.

Lemma first_match_app (search : string -> option string) (l1 l2 : list string) :
  first_match search (l1 ++ l2) =
  match first_match search l1 with
  | Some m => Some m
  | None => first_match search l2
  end.
Proof.
  induction l1 as [|u l1 IH]; simpl; [reflexivity|].
  destruct (search u); [reflexivity | exact IH].
Qed.

(** A leaf of the case analysis of [scan]: run the program, then read the
    trace and the answers off. *)
Ltac scan_raised Hnav :=
  eexists _, _; (split; [reflexivity|]); simpl;
  rewrite ?navigated_snoc, ?app_nil_r, ?Hnav;
  repeat split; auto 10;
  let H := fresh "Hquiet" in
  intros H; repeat (apply Forall_cons in H; destruct H as [? H]);
  try discriminate.


Section ScannerFacts.

Variable w : world.
Variable browser_engine : engine.
Variable user_agent : string.
Variable search : string -> option string.
Variable make_slugs : string -> list string.
Variable make_candidate_urls : string -> string -> string -> list string.

(** A match of the pattern is never the empty string, so [if found] sees it. *)
Hypothesis search_truthy : forall url m, search url = Some m -> truthy_str m = true.

Lemma first_match_truthy (urls : list string) (m : string) :
  first_match search urls = Some m -> truthy_str m = true.
Proof.
  induction urls as [|u urls IH]; simpl; [discriminate|].
  destruct (search u) eqn:Hu; [|exact IH].
  intros [= <-]. exact (search_truthy u s Hu).
Qed.

Lemma emit_spec (urls : list string) (st : scan_state) :
  emit search urls st = (Return tt, after_requests search urls st).
Proof.
  revert st. induction urls as [|u urls IH]; intros st.
  - unfold after_requests. simpl. destruct (listening st); reflexivity.
  - simpl. unfold bind, after_requests. simpl.
    destruct (listening st) eqn:Hl.
    + unfold on_request. destruct (search u) as [m|] eqn:Hu.
      * unfold bind, set_found, log, set_listening. simpl.
        rewrite IH. unfold after_requests. reflexivity.
      * unfold ret. rewrite IH. unfold after_requests. rewrite Hl. reflexivity.
    + unfold ret. rewrite IH. unfold after_requests. rewrite Hl. reflexivity.
Qed.

Lemma iteration_spec (url : string) (st : scan_state) (n : nat) :
  found st = None -> listening st = true ->
  length (navigated (trace st)) = n ->
  exists st',
    try_except (page_goto w search url ;;; page_wait_for_timeout w search 3000)
               (fun _ => ret tt) st = (Return tt, st') /\
    navigated (trace st') = navigated (trace st) ++ [url] /\
    found st' = first_match search (observed w n url) /\
    listening st' = negb (truthy_opt (found st')).
Proof.
  intros Hf Hl Hn.
  unfold try_except, bind, page_goto. rewrite Hn.
  unfold observed.
  destruct (goto w n url) as [reqs r] eqn:Hg.
  unfold bind, log. rewrite emit_spec. unfold after_requests. simpl.
  rewrite Hl.
  destruct r as [msg|]; simpl.
  - (* page.goto raises: the pause is skipped *)
    destruct (first_match search reqs) as [m|] eqn:Hm; simpl.
    + eexists. split; [reflexivity|]. simpl.
      rewrite !navigated_snoc, app_nil_r, (first_match_truthy _ _ Hm). auto.
    + eexists. split; [reflexivity|]. simpl.
      rewrite navigated_snoc, Hf. auto.
  - (* page.goto returns: the pause runs *)
    rewrite first_match_app.
    unfold page_wait_for_timeout.
    destruct (first_match search reqs) as [m|] eqn:Hm; unfold ret; simpl.
    + rewrite !navigated_snoc, app_nil_r, length_app, Hn. simpl.
      replace (Nat.pred (n + 1)) with n by lia.
      destruct (wait_for_timeout w n) as [reqs' r'].
      unfold bind, log. rewrite emit_spec. unfold after_requests. simpl.
      destruct r'; simpl; (eexists; split; [reflexivity|]); simpl;
        rewrite !navigated_snoc, !app_nil_r, (first_match_truthy _ _ Hm); auto.
    + rewrite !navigated_snoc, length_app, Hn. simpl.
      replace (Nat.pred (n + 1)) with n by lia.
      destruct (wait_for_timeout w n) as [reqs' r'].
      unfold bind, log. rewrite emit_spec. unfold after_requests. simpl.
      destruct (first_match search reqs') as [m'|] eqn:Hm';
        destruct r'; simpl; (eexists; split; [reflexivity|]); simpl;
        rewrite !navigated_snoc, ?app_nil_r, ?Hf, ?(first_match_truthy _ _ Hm');
        auto.
Qed.

(** The candidate loop never raises; it visits a prefix of the candidates
    and ends with the first match observed. *)
Lemma candidate_loop_spec (candidates : list string) (st : scan_state) (n : nat) :
  found st = None -> listening st = true ->
  length (navigated (trace st)) = n ->
  exists st',
    candidate_loop w search candidates st = (Return tt, st') /\
    navigated (trace st') =
      navigated (trace st) ++ (loop_outcome w search n candidates).1 /\
    found st' = (loop_outcome w search n candidates).2.
Proof.
  revert st n. induction candidates as [|url rest IH]; intros st n Hf Hl Hn.
  - exists st. simpl. rewrite app_nil_r. auto.
  - simpl. unfold bind at 1. unfold get_found. rewrite Hf. simpl.
    destruct (iteration_spec url st n Hf Hl Hn) as (st1 & Hrun & Hnav & Hfound & Hlisten).
    unfold bind at 1. rewrite Hrun.
    destruct (first_match search (observed w n url)) as [m|] eqn:Hm.
    + (* a match: the next test of [found] breaks *)
      exists st1. simpl. split; [|auto].
      destruct rest as [|url' rest']; [reflexivity|].
      simpl. unfold bind, get_found. rewrite Hfound. simpl.
      rewrite (first_match_truthy _ _ Hm). reflexivity.
    + rewrite Hfound in Hlisten. simpl in Hlisten.
      destruct (IH st1 (S n)) as (st2 & Hrun2 & Hnav2 & Hfound2); auto.
      { rewrite Hnav, length_app, Hn. simpl. lia. }
      exists st2. split; [exact Hrun2|].
      destruct (loop_outcome w search (S n) rest) as [visited f].
      simpl in *. rewrite Hnav2, Hnav, <- app_assoc. auto.
Qed.

Lemma loop_outcome_truthy (candidates : list string) (n : nat) (m : string) :
  (loop_outcome w search n candidates).2 = Some m -> truthy_str m = true.
Proof.
  revert n. induction candidates as [|url rest IH]; intros n; simpl; [discriminate|].
  destruct (first_match search (observed w n url)) as [m'|] eqn:Hm.
  - simpl. intros [= <-]. exact (first_match_truthy _ _ Hm).
  - specialize (IH (S n)).
    destruct (loop_outcome w search (S n) rest) as [visited f]. exact IH.
Qed.

(** The whole body of the [try] statement, by cases on what the browser
    answers.  An exception can only come from one of the seven calls outside
    the candidate loop. *)
Lemma scan_spec (animetitle season episode : string) (st0 : scan_state) :
  navigated (trace st0) = [] ->
  let candidates := candidates_of make_slugs make_candidate_urls animetitle season episode in
  let outcome := loop_outcome w search 0 candidates in
  exists res st',
    scan w browser_engine user_agent search make_slugs make_candidate_urls
         animetitle season episode st0 = (res, st') /\
    (navigated (trace st') = [] \/ navigated (trace st') = outcome.1) /\
    match res with
    | Return result =>
        result = match outcome.2 with
                 | Some m => found_result m
                 | None => not_found_result
                 end
    | Raise msg =>
        In (Some msg) (scan_level_answers w browser_engine user_agent)
    end /\
    (Forall (fun a => a = None) (scan_level_answers w browser_engine user_agent) ->
     exists result, res = Return result).
Proof.
  intros Hnav candidates outcome.
  unfold scan, scan_level_answers, with_manager, call, page_on, bind, log, answer,
    set_found, set_listening, get_found, ret, raise.
  fold candidates. simpl.
  destruct (playwright_start w) as [e0|].
  { scan_raised Hnav. }
  destruct (launch w browser_engine) as [e1|]; simpl.
  { destruct (playwright_stop w) as [e6|]; scan_raised Hnav. }
  destruct (new_context w user_agent) as [e2|]; simpl.
  { destruct (playwright_stop w) as [e6|]; scan_raised Hnav. }
  destruct (new_page w) as [e3|]; simpl.
  { destruct (playwright_stop w) as [e6|]; scan_raised Hnav. }
  match goal with
  | |- context [candidate_loop _ _ _ ?st] =>
      destruct (candidate_loop_spec candidates st 0%nat eq_refl eq_refl)
        as (st1 & Hrun & Hnav1 & Hfound1);
        [simpl; rewrite !navigated_snoc, Hnav; reflexivity|]
  end.
  rewrite Hrun. fold outcome in Hnav1, Hfound1.
  simpl in Hnav1. rewrite !navigated_snoc, Hnav in Hnav1. simpl in Hnav1.
  destruct (context_close w) as [e4|]; simpl.
  { destruct (playwright_stop w) as [e6|]; scan_raised Hnav1. }
  destruct (browser_close w) as [e5|]; simpl.
  { destruct (playwright_stop w) as [e6|]; scan_raised Hnav1. }
  rewrite Hfound1.
  destruct (outcome.2) as [m|] eqn:Hm; [rewrite (loop_outcome_truthy _ _ _ Hm)|];
    destruct (playwright_stop w) as [e6|]; scan_raised Hnav1; eauto.
Qed.

(** [fetch_video_url]: where it navigates and what it returns. *)
Lemma fetch_spec (animetitle season episode : string) :
  let candidates := candidates_of make_slugs make_candidate_urls animetitle season episode in
  let outcome := loop_outcome w search 0 candidates in
  let r := fetch_video_url_with w browser_engine user_agent search
             make_slugs make_candidate_urls animetitle season episode in
  let expected := match outcome.2 with
                  | Some m => found_result m
                  | None => not_found_result
                  end in
  (navigated r.2 = [] \/ navigated r.2 = outcome.1) /\
  ((exists msg, r.1 = error_result msg) \/ r.1 = expected) /\
  (Forall (fun a => a = None) (scan_level_answers w browser_engine user_agent) ->
   r.1 = expected).
Proof.
  intros candidates outcome r expected.
  destruct (scan_spec animetitle season episode
              (initial_state animetitle season episode) eq_refl)
    as (res & st' & Hrun & Hnav & Hres & Hquiet).
  fold candidates in Hnav, Hres. fold outcome in Hnav, Hres.
  unfold r, fetch_video_url_with. rewrite Hrun.
  destruct res as [result|msg]; simpl.
  - subst result. auto.
  - split; [exact Hnav|]. split; [eauto|].
    intros Hq. destruct (Hquiet Hq) as [result Hr]. discriminate Hr.
Qed.

(** The loop visits the candidates in order, and none after the first one
    during which a match is captured. *)
Lemma loop_outcome_prefix (n : nat) (candidates : list string) :
  (loop_outcome w search n candidates).1 `prefix_of` candidates.
Proof.
  revert n. induction candidates as [|url rest IH]; intros n; simpl.
  - reflexivity.
  - destruct (first_match search (observed w n url)).
    + simpl. apply (prefix_cons url), prefix_nil.
    + specialize (IH (S n)).
      destruct (loop_outcome w search (S n) rest) as [visited f].
      simpl in *. apply prefix_cons, IH.
Qed.

Lemma loop_outcome_stops (n k : nat) (candidates : list string) (url : string) :
  candidates !! k = Some url ->
  captures w search (n + k) url = true ->
  (length (loop_outcome w search n candidates).1 <= S k)%nat.
Proof.
  revert n k. induction candidates as [|u rest IH]; intros n k; [discriminate|].
  simpl. destruct (first_match search (observed w n u)) as [m|] eqn:Hm.
  - intros _ _. simpl. lia.
  - destruct k as [|k]; simpl.
    + intros [= <-]. unfold captures. rewrite Nat.add_0_r, Hm. discriminate.
    + intros Hk Hc. specialize (IH (S n) k Hk).
      replace (S n + k)%nat with (n + S k)%nat in IH by lia.
      specialize (IH Hc).
      destruct (loop_outcome w search (S n) rest) as [visited f].
      simpl in *. lia.
Qed.

Lemma loop_outcome_no_capture (n : nat) (candidates : list string) :
  (forall k url, candidates !! k = Some url -> captures w search (n + k) url = false) ->
  loop_outcome w search n candidates = (candidates, None).
Proof.
  revert n. induction candidates as [|u rest IH]; intros n Hno; [reflexivity|].
  simpl. pose proof (Hno 0%nat u eq_refl) as H0.
  unfold captures in H0. rewrite Nat.add_0_r in H0.
  destruct (first_match search (observed w n u)); [discriminate|].
  rewrite IH; [reflexivity|].
  intros k url Hk. replace (S n + k)%nat with (n + S k)%nat by lia.
  apply Hno. exact Hk.
Qed.

End ScannerFacts.

(** ** The pattern and the two instances of the scan *)

Lemma is_empty_append (a b : string) :
  Py.is_empty (a +:+ b) = Py.is_empty a && Py.is_empty b.
Proof. destruct a; reflexivity. Qed.

Lemma match_at_nonempty (lit s m : string) :
  Py.match_at lit s = Some m -> Py.is_empty m = false.
Proof.
  unfold Py.match_at.
  destruct (Py.match_literal lit s) as [[m0 rest]|]; [|discriminate].
  destruct (Py.is_empty (Py.take_while Py.url_class rest)) eqn:Hrun; [discriminate|].
  intros [= <-]. rewrite is_empty_append, Hrun. apply andb_false_r.
Qed.

Lemma search_nonempty (lit s m : string) :
  Py.search lit s = Some m -> Py.is_empty m = false.
Proof.
  induction s as [|c s IH]; simpl.
  - destruct (Py.match_at lit EmptyString) eqn:Hm; [|discriminate].
    intros [= <-]. exact (match_at_nonempty _ _ _ Hm).
  - destruct (Py.match_at lit (String c s)) eqn:Hm; [|exact IH].
    intros [= <-]. exact (match_at_nonempty _ _ _ Hm).
Qed.

Lemma video_re_truthy (url m : string) :
  App.VIDEO_RE_search url = Some m -> truthy_str m = true.
Proof.
  unfold App.VIDEO_RE_search, truthy_str. intros H.
  rewrite (search_nonempty _ _ _ H). reflexivity.
Qed.

Lemma prefix_lookup_beyond (visited candidates : list string) (k : nat) :
  (length visited <= S k)%nat -> forall j, (k < j)%nat -> visited !! j = None.
Proof. intros Hlen j Hj. apply lookup_ge_None. lia. Qed.

(** ** Claims about the scan *)

(** C1.  If the observer captures a request matching the video-host pattern
    while candidate number [k] is processed (during its [page.goto] or the
    pause after it), then the pages visited by [fetch_video_url] -- in
    [src/app.py] and in [src/video.py], which enumerate the same eight
    candidates -- are the first candidates in order, at most [k + 1] of
    them: there is no navigation for a candidate after [k]. *)
Theorem short_circuit_after_match (w : world) (title season episode : string)
    (k : nat) (url : string) :
  let candidates :=
    candidates_of App.make_slugs App.make_candidate_urls title season episode in
  candidates !! k = Some url ->
  captures w App.VIDEO_RE_search k url = true ->
  length candidates = 8%nat /\
  candidates = candidates_of Video.make_slugs Video.make_candidate_urls
                 title season episode /\
  stops_by candidates k (navigated (App.fetch_video_url w title season episode).2) /\
  stops_by candidates k (navigated (Video.fetch_video_url w title season episode).2).
Proof.
  intros candidates Hk Hcap.
  split; [reflexivity|]. split; [reflexivity|].
  assert (Hstop : (length (loop_outcome w App.VIDEO_RE_search 0 candidates).1 <= S k)%nat)
    by (apply (loop_outcome_stops w App.VIDEO_RE_search 0 k candidates url Hk Hcap)).
  pose proof (loop_outcome_prefix w App.VIDEO_RE_search 0 candidates) as Hpre.
  assert (Hboth : forall visited,
            visited = [] \/ visited = (loop_outcome w App.VIDEO_RE_search 0 candidates).1 ->
            stops_by candidates k visited).
  { intros visited [-> | ->].
    - split; [apply prefix_nil|]. split; [simpl; lia|]. intros j _. reflexivity.
    - split; [exact Hpre|]. split; [exact Hstop|].
      apply prefix_lookup_beyond with (candidates := candidates), Hstop. }
  split; apply Hboth.
  - apply (fetch_spec w Firefox App.user_agent App.VIDEO_RE_search
             App.make_slugs App.make_candidate_urls video_re_truthy
             title season episode).
  - apply (fetch_spec w Chromium Video.user_agent Video.VIDEO_RE_search
             Video.make_slugs Video.make_candidate_urls video_re_truthy
             title season episode).
Qed.

Lemma short_circuit_after_match_witness :
  let candidates :=
    candidates_of App.make_slugs App.make_candidate_urls "naruto" "1" "5" in
  candidates !! 2%nat = Some "https://animedekho.co/epi/naruto/1x5/" /\
  captures third_candidate_world App.VIDEO_RE_search 2
    "https://animedekho.co/epi/naruto/1x5/" = true /\
  length candidates = 8%nat /\
  candidates = candidates_of Video.make_slugs Video.make_candidate_urls
                 "naruto" "1" "5" /\
  stops_by candidates 2
    (navigated (App.fetch_video_url third_candidate_world "naruto" "1" "5").2) /\
  stops_by candidates 2
    (navigated (Video.fetch_video_url third_candidate_world "naruto" "1" "5").2).
Proof.
  split; [reflexivity|]. split; [reflexivity|].
  apply (short_circuit_after_match third_candidate_world "naruto" "1" "5" 2
           "https://animedekho.co/epi/naruto/1x5/"); reflexivity.
Defined.

(** In that world the scan visits exactly the first three candidates, the
    second navigation failing on the way, and returns the match. *)
Example third_candidate_run :
  navigated (App.fetch_video_url third_candidate_world "naruto" "1" "5").2 =
    [ "https://animedekho.co/epi/naruto-1x5/";
      "https://animedekho.co/episodes/naruto-1x5/";
      "https://animedekho.co/epi/naruto/1x5/" ] /\
  (App.fetch_video_url third_candidate_world "naruto" "1" "5").1 =
    found_result "https://play.zephyrflick.top/video/abc123" /\
  (App.get_video_url third_candidate_world naruto_query).1 =
    Return (found_result "https://play.zephyrflick.top/video/abc123", 200%Z).
Proof. repeat split; vm_compute; reflexivity. Qed.

Lemma found_result_populated (m : string) : fully_populated (found_result m).
Proof. exists true. split; [reflexivity|]. split; [eexists|]; reflexivity. Qed.

Lemma not_found_result_populated : fully_populated not_found_result.
Proof. exists false. split; [reflexivity|]. split; [eexists|]; reflexivity. Qed.

Lemma error_result_populated (msg : string) : fully_populated (error_result msg).
Proof. exists false. split; [reflexivity|]. split; [eexists|]; reflexivity. Qed.

Lemma fetch_result_populated (w : world) (e : engine) (ua : string)
    (title season episode : string) :
  fully_populated
    (fetch_video_url_with w e ua App.VIDEO_RE_search App.make_slugs
       App.make_candidate_urls title season episode).1.
Proof.
  destruct (fetch_spec w e ua App.VIDEO_RE_search App.make_slugs
              App.make_candidate_urls video_re_truthy title season episode)
    as (_ & [[msg ->] | ->] & _).
  - apply error_result_populated.
  - destruct (loop_outcome _ _ _ _).2.
    + apply found_result_populated.
    + apply not_found_result_populated.
Qed.

(** C4.  Whatever the browser does, the dictionary returned by
    [fetch_video_url] (in both files) is fully populated: [success] is true
    with [video_url] present and [error] absent, or [success] is false with
    [error] present and [video_url] absent. *)
Theorem scan_result_fully_populated (w : world) (title season episode : string) :
  fully_populated (App.fetch_video_url w title season episode).1 /\
  fully_populated (Video.fetch_video_url w title season episode).1.
Proof.
  split.
  - apply (fetch_result_populated w Firefox App.user_agent).
  - apply (fetch_result_populated w Chromium Video.user_agent).
Qed.

(** ** Claims about the endpoint *)

(** A well-formed query reaches [fetch_video_url], and the status follows
    from the result. *)
Lemma get_video_url_well_formed (w : world) (args : list (string * string))
    (title season episode : string) :
  well_formed_query w args title season episode ->
  App.get_video_url w args =
    let '(result, tr) := App.fetch_video_url w title season episode in
    match result !! "success" with
    | None => (Raise "'success'", tr)
    | Some ok =>
        if truthy ok then (Return (result, 200%Z), tr)
        else
          match App.failure_status result with
          | Some status => (Return (result, status), tr)
          | None => (Raise "argument of type 'bool' is not iterable", tr)
          end
    end.
Proof.
  intros (Ht & Hs & He & Htt & Hst & Het & Hsp & Hep).
  unfold App.get_video_url. rewrite Ht, Hs, He, Htt, Hst, Het. simpl.
  unfold parses in Hsp, Hep.
  apply bool_decide_eq_true in Hsp, Hep.
  destruct Hsp as [n1 ->], Hep as [n2 ->]. reflexivity.
Qed.

Lemma contains_after_prefix (msg : string) :
  Py.contains "No video URL found" ("An error occurred: " +:+ msg)
  = Py.contains "No video URL found" msg.
Proof. reflexivity. Qed.

(** C2.  When the query is well formed, none of the browser calls outside
    the candidate loop raises and no candidate's requests match the pattern,
    [fetch_video_url] returns the dictionary with [success] false whose
    [error] contains [No video URL found], and [/api/video] answers with this
    body and status 404. *)
Theorem not_found_is_404 (w : world) (args : list (string * string))
    (title season episode : string) :
  well_formed_query w args title season episode ->
  Forall (fun a => a = None) (scan_level_answers w Firefox App.user_agent) ->
  (forall k url,
     candidates_of App.make_slugs App.make_candidate_urls title season episode !! k
       = Some url ->
     captures w App.VIDEO_RE_search k url = false) ->
  (App.fetch_video_url w title season episode).1 = not_found_result /\
  not_found_result !! "success" = Some (VBool false) /\
  (exists err, not_found_result !! "error" = Some (VStr err) /\
               Py.contains "No video URL found" err = true) /\
  (App.get_video_url w args).1 = Return (not_found_result, 404%Z).
Proof.
  intros Hq Hquiet Hno.
  assert (Hfetch : (App.fetch_video_url w title season episode).1 = not_found_result).
  { destruct (fetch_spec w Firefox App.user_agent App.VIDEO_RE_search App.make_slugs
                App.make_candidate_urls video_re_truthy title season episode)
      as (_ & _ & Hexp).
    unfold App.fetch_video_url. rewrite (Hexp Hquiet).
    rewrite (loop_outcome_no_capture w App.VIDEO_RE_search 0 _ Hno). reflexivity. }
  split; [exact Hfetch|]. split; [reflexivity|].
  split; [eexists; split; reflexivity|].
  rewrite (get_video_url_well_formed w args title season episode Hq).
  destruct (App.fetch_video_url w title season episode) as [result tr].
  simpl in Hfetch. subst result. reflexivity.
Qed.

Lemma not_found_is_404_witness :
  well_formed_query calm_world naruto_query "naruto" "1" "5" /\
  (App.fetch_video_url calm_world "naruto" "1" "5").1 = not_found_result /\
  not_found_result !! "success" = Some (VBool false) /\
  (exists err, not_found_result !! "error" = Some (VStr err) /\
               Py.contains "No video URL found" err = true) /\
  (App.get_video_url calm_world naruto_query).1 = Return (not_found_result, 404%Z).
Proof.
  assert (Hq : well_formed_query calm_world naruto_query "naruto" "1" "5")
    by (repeat split; reflexivity).
  split; [exact Hq|].
  apply (not_found_is_404 calm_world naruto_query "naruto" "1" "5" Hq).
  - repeat constructor.
  - intros k url _. reflexivity.
Defined.

(** What the last line of [get_video_url] makes of an exception of the body
    of the [try] statement, whose text is [msg]: the test for the not-found
    phrase is run on an [error] field that embeds [msg]. *)
Lemma scan_exception_status (w : world) (args : list (string * string))
    (title season episode msg : string) :
  well_formed_query w args title season episode ->
  app_scan_raises w title season episode msg ->
  In (Some msg) (scan_level_answers w Firefox App.user_agent) /\
  (App.fetch_video_url w title season episode).1 = error_result msg /\
  error_result msg !! "success" = Some (VBool false) /\
  error_result msg !! "error" = Some (VStr ("An error occurred: " +:+ msg)) /\
  error_result msg !! "message" = Some (VStr "Failed to fetch video URL") /\
  (App.get_video_url w args).1 =
    Return (error_result msg,
            if Py.contains "No video URL found" msg then 404%Z else 500%Z).
Proof.
  intros Hq [st' Hraise].
  split.
  { destruct (scan_spec w Firefox App.user_agent App.VIDEO_RE_search App.make_slugs
                App.make_candidate_urls video_re_truthy title season episode
                (initial_state title season episode) eq_refl)
      as (res & st'' & Hrun & _ & Hres & _).
    rewrite Hraise in Hrun. injection Hrun as <- <-. exact Hres. }
  assert (Hfetch : App.fetch_video_url w title season episode
                   = (error_result msg, trace st')).
  { unfold App.fetch_video_url, fetch_video_url_with. rewrite Hraise. reflexivity. }
  rewrite (get_video_url_well_formed w args title season episode Hq), Hfetch.
  repeat (split; [reflexivity|]).
  change (error_result msg !! "success") with (Some (VBool false)).
  cbv beta iota. simpl truthy. cbv iota.
  unfold App.failure_status.
  change (error_result msg !! "error")
    with (Some (VStr ("An error occurred: " +:+ msg))).
  rewrite <- (contains_after_prefix msg). reflexivity.
Qed.

(** C3, at a failing input.  The claim: an exception raised outside the
    per-candidate [try], such as a browser launch failure, gives a result
    with [success] false that [/api/video] answers with status 500, never
    404.  Here the launch fails because the browser executable is missing,
    and the directory of the browsers has [No video URL found] in its name:
    the scan raises, [fetch_video_url] returns the error dictionary, and
    [/api/video] answers it with status 404 instead of 500. *)
Lemma scan_exception_answered_404 :
  well_formed_query (launch_failure_world missing_browser_text)
    naruto_query "naruto" "1" "5" /\
  launch (launch_failure_world missing_browser_text) Firefox
    = Some missing_browser_text /\
  app_scan_raises (launch_failure_world missing_browser_text)
    "naruto" "1" "5" missing_browser_text /\
  (App.fetch_video_url (launch_failure_world missing_browser_text)
     "naruto" "1" "5").1 = error_result missing_browser_text /\
  (App.get_video_url (launch_failure_world missing_browser_text) naruto_query).1
    = Return (error_result missing_browser_text, 404%Z) /\
  (App.get_video_url (launch_failure_world missing_browser_text) naruto_query).1
    <> Return (error_result missing_browser_text, 500%Z).
Proof.
  split; [repeat split; reflexivity|].
  split; [reflexivity|].
  split; [eexists; reflexivity|].
  split; [reflexivity|].
  assert (H : (App.get_video_url (launch_failure_world missing_browser_text)
                 naruto_query).1
              = Return (error_result missing_browser_text, 404%Z))
    by (vm_compute; reflexivity).
  split; [exact H|]. rewrite H. intros [= ?].
Qed.

(** C7, as the code has it.  When the season or the episode parameter is
    absent or does not parse as an integer, [/api/video] answers 400 with
    [success] false and calls nothing.  The body is the invalid-number body
    when title, season and episode are all present and not empty, and the
    missing-parameters body otherwise. *)
Theorem unparsable_number_is_400 (w : world) (args : list (string * string)) :
  let animetitle := App.args_get "title" args in
  let season := App.args_get "season" args in
  let episode := App.args_get "episode" args in
  parses w season && parses w episode = false ->
  exists body,
    App.get_video_url w args = (Return (body, 400%Z), []) /\
    scanner_not_invoked (App.get_video_url w args).2 /\
    body !! "success" = Some (VBool false) /\
    body = (if truthy_opt animetitle && truthy_opt season && truthy_opt episode
            then App.invalid_number else App.missing_parameters) /\
    App.invalid_number !! "error" = Some (VStr "Invalid season or episode number") /\
    App.invalid_number !! "message"
      = Some (VStr "Season and episode must be valid numbers").
Proof.
  intros animetitle season episode Hbad.
  unfold App.get_video_url. fold animetitle season episode.
  unfold scanner_not_invoked.
  destruct animetitle as [t|], season as [s|], episode as [e|]; simpl;
    try (rewrite ?andb_false_r; eexists; repeat split; reflexivity).
  destruct (truthy_str t), (truthy_str s), (truthy_str e); simpl;
    try (eexists; repeat split; reflexivity).
  unfold parses in Hbad.
  destruct (Py.int (int_max_str_digits w) s) as [n1|].
  - destruct (Py.int (int_max_str_digits w) e) as [n2|].
    + rewrite !bool_decide_eq_true_2 in Hbad by eauto. discriminate Hbad.
    + eexists; repeat split; reflexivity.
  - eexists; repeat split; reflexivity.
Qed.

Lemma unparsable_number_is_400_witness :
  parses calm_world (App.args_get "season" [("title", "naruto"); ("season", "abc"); ("episode", "5")])
  && parses calm_world (App.args_get "episode" [("title", "naruto"); ("season", "abc"); ("episode", "5")])
  = false /\
  exists body,
    App.get_video_url calm_world [("title", "naruto"); ("season", "abc"); ("episode", "5")]
      = (Return (body, 400%Z), []) /\
    scanner_not_invoked
      (App.get_video_url calm_world
         [("title", "naruto"); ("season", "abc"); ("episode", "5")]).2 /\
    body !! "success" = Some (VBool false) /\
    body = App.invalid_number /\
    App.invalid_number !! "error" = Some (VStr "Invalid season or episode number") /\
    App.invalid_number !! "message"
      = Some (VStr "Season and episode must be valid numbers").
Proof.
  split; [reflexivity|].
  apply (unparsable_number_is_400 calm_world
           [("title", "naruto"); ("season", "abc"); ("episode", "5")]).
  reflexivity.
Defined.

(** C7 as stated fails: with [season=abc] and no episode parameter the
    answer is the missing-parameters body, which says nothing about an
    invalid season or episode. *)
Lemma unparsable_season_answered_missing :
  App.args_get "season" [("title", "naruto"); ("season", "abc")] = Some "abc" /\
  Py.int (int_max_str_digits calm_world) "abc" = None /\
  App.get_video_url calm_world [("title", "naruto"); ("season", "abc")]
    = (Return (App.missing_parameters, 400%Z), []) /\
  App.missing_parameters !! "error"
    = Some (VStr "Missing required parameters: title, season, episode") /\
  App.missing_parameters !! "message"
    = Some (VStr "Please provide title, season, and episode as query parameters") /\
  App.missing_parameters <> App.invalid_number.
Proof.
  repeat (split; [reflexivity|]).
  intros H. apply (f_equal (fun m => m !! "error")) in H. discriminate H.
Qed.

(** C10.  A request whose title parameter is present but empty is answered
    like a request without title: status 400 with the missing-parameters
    body, and nothing is called. *)
Theorem empty_title_is_missing (w : world) (args : list (string * string)) :
  App.args_get "title" args = Some EmptyString ->
  App.get_video_url w args = (Return (App.missing_parameters, 400%Z), []) /\
  scanner_not_invoked (App.get_video_url w args).2 /\
  (forall args', App.args_get "title" args' = None ->
                 App.get_video_url w args' = App.get_video_url w args) /\
  App.missing_parameters !! "success" = Some (VBool false) /\
  App.missing_parameters !! "error"
    = Some (VStr "Missing required parameters: title, season, episode").
Proof.
  intros Htitle.
  assert (H : App.get_video_url w args = (Return (App.missing_parameters, 400%Z), [])).
  { unfold App.get_video_url. rewrite Htitle.
    destruct (App.args_get "season" args), (App.args_get "episode" args); reflexivity. }
  split; [exact H|]. rewrite H.
  split; [reflexivity|]. split; [|split; reflexivity].
  intros args' Hnone. unfold App.get_video_url. rewrite Hnone. reflexivity.
Qed.

Lemma empty_title_is_missing_witness :
  App.args_get "title" [("title", EmptyString); ("season", "1"); ("episode", "5")]
    = Some EmptyString /\
  App.get_video_url calm_world [("title", EmptyString); ("season", "1"); ("episode", "5")]
    = (Return (App.missing_parameters, 400%Z), []).
Proof.
  split; [reflexivity|].
  exact (proj1 (empty_title_is_missing calm_world
                  [("title", EmptyString); ("season", "1"); ("episode", "5")]
                  eq_refl)).
Defined.

(** * Further properties of the code *)

(** ** More about [make_slugs] *)

Section MoreStringFacts.

Variables p q : ascii -> bool.

Lemma lstrip_fixed (s : string) :
  (forall c, Py.first_char s = Some c -> p c = false) -> Py.lstrip p s = s.
Proof.
  destruct s as [|c s]; simpl; [reflexivity|].
  intros H. rewrite (H c eq_refl). reflexivity.
Qed.

Lemma rstrip_fixed (s : string) :
  (forall c, Py.last_char s = Some c -> p c = false) -> Py.rstrip p s = s.
Proof.
  induction s as [|c s IH]; simpl; [reflexivity|].
  intros H. destruct s as [|d s].
  - simpl. rewrite (H c eq_refl). reflexivity.
  - rewrite IH by exact H. reflexivity.
Qed.

Lemma strip_fixed (s : string) :
  (forall c, Py.first_char s = Some c -> p c = false) ->
  (forall c, Py.last_char s = Some c -> p c = false) ->
  Py.strip p s = s.
Proof.
  intros Hf Hl. unfold Py.strip. rewrite (lstrip_fixed s Hf). apply rstrip_fixed, Hl.
Qed.

Lemma all_first_char (s : string) (c : ascii) :
  Py.all q s = true -> Py.first_char s = Some c -> q c = true.
Proof.
  destruct s as [|a s]; simpl; [discriminate|].
  intros H [= <-]. apply andb_true_iff in H. apply H.
Qed.

Lemma all_last_char (s : string) (c : ascii) :
  Py.all q s = true -> Py.last_char s = Some c -> q c = true.
Proof.
  induction s as [|a s IH]; simpl; [discriminate|].
  intros H. apply andb_true_iff in H. destruct H as [Ha Hs].
  destruct s as [|b s]; [intros [= <-]; exact Ha | apply IH, Hs].
Qed.

Lemma lstrip_all (s : string) : Py.all p s = true -> Py.lstrip p s = EmptyString.
Proof.
  induction s as [|c s IH]; simpl; [reflexivity|].
  intros H. apply andb_true_iff in H. destruct H as [-> Hs]. apply IH, Hs.
Qed.

Lemma sub_delete_fixed (s : string) :
  Py.all (fun c => negb (p c)) s = true -> Py.sub_delete p s = s.
Proof.
  induction s as [|c s IH]; simpl; [reflexivity|].
  intros H. apply andb_true_iff in H. destruct H as [Hc Hs].
  apply negb_true_iff in Hc. rewrite Hc, (IH Hs). reflexivity.
Qed.

Lemma sub_runs_from_fixed (r : string) (in_run : bool) (s : string) :
  Py.all (fun c => negb (p c)) s = true -> Py.sub_runs_from p r in_run s = s.
Proof.
  revert in_run. induction s as [|c s IH]; intros in_run; simpl; [reflexivity|].
  intros H. apply andb_true_iff in H. destruct H as [Hc Hs].
  apply negb_true_iff in Hc. rewrite Hc, (IH false Hs). reflexivity.
Qed.

(** Characters outside the stripped or replaced class survive. *)
Lemma any_lstrip (s : string) :
  (forall c, q c = true -> p c = false) ->
  any q s = true -> any q (Py.lstrip p s) = true.
Proof.
  intros Hqp. induction s as [|c s IH]; simpl; [discriminate|].
  destruct (p c) eqn:Hp; [|exact (fun H => H)].
  destruct (q c) eqn:Hq; [rewrite (Hqp c Hq) in Hp; discriminate|].
  exact IH.
Qed.

Lemma any_rstrip (s : string) :
  (forall c, q c = true -> p c = false) ->
  any q s = true -> any q (Py.rstrip p s) = true.
Proof.
  intros Hqp. induction s as [|c s IH]; simpl; [discriminate|].
  destruct (q c) eqn:Hq; simpl.
  - intros _. rewrite (Hqp c Hq), andb_false_r. simpl. rewrite Hq. reflexivity.
  - intros Hs. specialize (IH Hs).
    destruct (Py.rstrip p s) as [|d r]; [discriminate IH|].
    simpl. simpl in IH. rewrite IH. apply orb_true_r.
Qed.

Lemma any_sub_delete (s : string) :
  (forall c, q c = true -> p c = false) ->
  any q s = true -> any q (Py.sub_delete p s) = true.
Proof.
  intros Hqp. induction s as [|c s IH]; simpl; [discriminate|].
  destruct (q c) eqn:Hq; simpl.
  - intros _. rewrite (Hqp c Hq). simpl. rewrite Hq. reflexivity.
  - intros Hs. destruct (p c); simpl; rewrite ?Hq; simpl; apply IH, Hs.
Qed.

Lemma any_append (s t : string) : any q (s +:+ t) = any q s || any q t.
Proof.
  induction s as [|c s IH]; simpl; [reflexivity|].
  rewrite IH. apply orb_assoc.
Qed.

Lemma any_sub_runs_from (r : string) (in_run : bool) (s : string) :
  (forall c, q c = true -> p c = false) ->
  any q s = true -> any q (Py.sub_runs_from p r in_run s) = true.
Proof.
  intros Hqp. revert in_run.
  induction s as [|c s IH]; intros in_run; simpl; [discriminate|].
  destruct (q c) eqn:Hq; simpl.
  - intros _. rewrite (Hqp c Hq). simpl. rewrite Hq. reflexivity.
  - intros Hs. destruct (p c); simpl.
    + destruct in_run; [apply IH, Hs|].
      rewrite any_append, (IH true Hs). apply orb_true_r.
    + rewrite Hq. simpl. apply IH, Hs.
Qed.

Lemma any_nonempty (s : string) : any q s = true -> s <> EmptyString.
Proof. destruct s; [discriminate | discriminate]. Qed.

Lemma all_not_any (s : string) :
  Py.all (fun c => negb (q c)) s = negb (any q s).
Proof.
  induction s as [|c s IH]; simpl; [reflexivity|].
  rewrite IH, negb_orb. reflexivity.
Qed.

(** Stripping keeps the absence of neighbouring [q] characters. *)
Lemma no_adjacent_lstrip (s : string) :
  no_adjacent q s = true -> no_adjacent q (Py.lstrip p s) = true.
Proof.
  induction s as [|c s IH]; simpl; [reflexivity|].
  intros H. destruct (p c); [|exact H].
  apply andb_true_iff in H. apply IH, H.
Qed.

Lemma no_adjacent_rstrip (s : string) :
  no_adjacent q s = true -> no_adjacent q (Py.rstrip p s) = true.
Proof.
  induction s as [|c s IH]; simpl; [reflexivity|].
  intros H. apply andb_true_iff in H. destruct H as [Hc Hs].
  destruct (Py.is_empty (Py.rstrip p s) && p c); simpl; [reflexivity|].
  rewrite (IH Hs), andb_true_r.
  destruct (Py.first_char (Py.rstrip p s)) as [d|] eqn:Hd.
  - rewrite (first_char_rstrip p s d Hd) in Hc. exact Hc.
  - rewrite andb_false_r. reflexivity.
Qed.

End MoreStringFacts.

Lemma isword_lower_char (c : ascii) : Py.isword (Py.lower_char c) = Py.isword c.
Proof. each_char c. Qed.

Lemma isword_not_space (c : ascii) : Py.isword c = true -> Py.isspace c = false.
Proof. each_char c. Qed.

Lemma isword_not_hyphen (c : ascii) : Py.isword c = true -> Py.ishyphen c = false.
Proof. each_char c. Qed.

Lemma ishyphen_eq (c : ascii) : Py.ishyphen c = true -> c = "-"%char.
Proof. each_char c. Qed.

Lemma quote_char_quoted (c : ascii) :
  Py.isspace c = false ->
  Py.all (fun d => quoted_char d && Py.isascii d) (Py.quote_char c) = true.
Proof. each_char c. Qed.

Lemma any_lower_word (s : string) : any Py.isword (Py.lower s) = any Py.isword s.
Proof.
  induction s as [|c s IH]; simpl; [reflexivity|].
  rewrite isword_lower_char, IH. reflexivity.
Qed.

(** Collapsing the runs of hyphens leaves no two hyphens side by side, and a
    text without such a pair is left as it is. *)
Lemma collapse_no_adjacent (s : string) (in_run : bool) :
  no_adjacent Py.ishyphen (Py.sub_runs_from Py.ishyphen "-" in_run s) = true /\
  (in_run = true ->
   forall c, Py.first_char (Py.sub_runs_from Py.ishyphen "-" in_run s) = Some c ->
             Py.ishyphen c = false).
Proof.
  revert in_run. induction s as [|c s IH]; intros in_run; simpl.
  - split; [reflexivity | discriminate].
  - destruct (Py.ishyphen c) eqn:Hc.
    + destruct in_run.
      * apply IH.
      * split; [|discriminate].
        destruct (IH true) as [Hna Hfirst].
        change ("-" +:+ Py.sub_runs_from Py.ishyphen "-" true s)
          with (String "-" (Py.sub_runs_from Py.ishyphen "-" true s)).
        cbn [no_adjacent]. rewrite Hna, andb_true_r.
        destruct (Py.first_char (Py.sub_runs_from Py.ishyphen "-" true s)) as [d|] eqn:Hd;
          [rewrite (Hfirst eq_refl d eq_refl)|]; reflexivity.
    + simpl. rewrite Hc. simpl. split; [apply IH|].
      intros _ d [= <-]. exact Hc.
Qed.

Lemma collapse_fixed (s : string) (in_run : bool) :
  no_adjacent Py.ishyphen s = true ->
  (in_run = true -> forall c, Py.first_char s = Some c -> Py.ishyphen c = false) ->
  Py.sub_runs_from Py.ishyphen "-" in_run s = s.
Proof.
  revert in_run. induction s as [|c s IH]; intros in_run; simpl; [reflexivity|].
  intros H Hrun. apply andb_true_iff in H. destruct H as [Hc Hs].
  destruct (Py.ishyphen c) eqn:Hh.
  - destruct in_run; [rewrite (Hrun eq_refl c eq_refl) in Hh; discriminate|].
    simpl. rewrite (ishyphen_eq c Hh). f_equal. apply IH; [exact Hs|].
    intros _ d Hd. rewrite Hd in Hc. simpl in Hc.
    apply negb_true_iff in Hc. exact Hc.
  - f_equal. apply IH; [exact Hs | discriminate].
Qed.

(** More about the first slug: its alphabet, its hyphens and when it is empty. *)
Lemma make_slugs_more (title : string) :
  exists base,
    App.make_slugs title = [base; Py.quote_plus base] /\
    Py.all (fun c => Py.isword c || Py.ishyphen c) base = true /\
    no_adjacent Py.ishyphen base = true /\
    (any Py.isword title = true -> any Py.isword base = true) /\
    (any Py.isword title = false -> base = EmptyString).
Proof.
  eexists. split; [reflexivity|].
  pose (kept := fun c => negb (Py.isword c || Py.isspace c || Py.ishyphen c)).
  fold kept.
  assert (Hdel : Py.all (fun c => Py.isword c || Py.isspace c || Py.ishyphen c)
                   (Py.sub_delete kept (Py.lower (Py.strip Py.isspace title))) = true).
  { eapply all_impl; [|apply (all_sub_delete kept (fun _ => true))].
    - intros c. unfold kept. simpl. rewrite negb_involutive. exact (fun H => H).
    - generalize (Py.lower (Py.strip Py.isspace title)).
      intros s. induction s; simpl; auto. }
  assert (Hword : Py.all (fun c => Py.isword c || Py.ishyphen c)
                    (Py.sub_runs Py.isspace "-"
                       (Py.sub_delete kept (Py.lower (Py.strip Py.isspace title)))) = true).
  { apply all_sub_runs_from; [reflexivity|].
    revert Hdel. apply all_impl. intros c.
    destruct (Py.isword c), (Py.isspace c), (Py.ishyphen c); simpl; auto. }
  split; [|split; [|split]].
  - apply all_strip, all_sub_runs; [reflexivity | exact Hword].
  - unfold Py.strip. apply no_adjacent_rstrip, no_adjacent_lstrip.
    apply (collapse_no_adjacent _ false).
  - intros Hany.
    unfold Py.strip at 1.
    apply any_rstrip; [exact isword_not_hyphen|].
    apply any_lstrip; [exact isword_not_hyphen|].
    apply any_sub_runs_from; [exact isword_not_hyphen|].
    apply any_sub_runs_from; [exact isword_not_space|].
    apply any_sub_delete.
    { intros c Hc. unfold kept. rewrite Hc. reflexivity. }
    rewrite any_lower_word. unfold Py.strip.
    apply any_rstrip; [exact isword_not_space|].
    apply any_lstrip; [exact isword_not_space|]. exact Hany.
  - intros Hnone.
    assert (Hs0 : Py.all (fun c => negb (Py.isword c))
                    (Py.lower (Py.strip Py.isspace title)) = true).
    { rewrite all_not_any, any_lower_word, <- all_not_any.
      apply all_strip. rewrite all_not_any, Hnone. reflexivity. }
    assert (Hs1 : Py.all (fun c => Py.isspace c || Py.ishyphen c)
                    (Py.sub_delete kept (Py.lower (Py.strip Py.isspace title))) = true).
    { eapply all_impl; [|apply (all_sub_delete kept), Hs0].
      intros c. unfold kept.
      destruct (Py.isword c), (Py.isspace c), (Py.ishyphen c); simpl; auto. }
    unfold Py.strip at 1. rewrite lstrip_all; [reflexivity|].
    apply all_sub_runs; [reflexivity|].
    apply all_sub_runs_from; [reflexivity | exact Hs1].
Qed.

Lemma quote_plus_quoted (s : string) :
  Py.all (fun c => negb (Py.isspace c)) s = true ->
  Py.all (fun d => quoted_char d && Py.isascii d) (Py.quote_plus s) = true.
Proof.
  induction s as [|c s IH]; simpl; [reflexivity|].
  intros H. apply andb_true_iff in H. destruct H as [Hc Hs].
  apply negb_true_iff in Hc.
  rewrite all_append, (quote_char_quoted c Hc), (IH Hs). reflexivity.
Qed.

Lemma eqb_hyphen (c : ascii) : Ascii.eqb "-" c = Py.ishyphen c.
Proof. each_char c. Qed.

Lemma no_adjacent_no_pair (s : string) :
  no_adjacent Py.ishyphen s = true -> Py.contains "--" s = false.
Proof.
  induction s as [|c s IH]; [reflexivity|].
  cbn [no_adjacent Py.contains]. intros H.
  apply andb_true_iff in H. destruct H as [Hc Hs].
  rewrite (IH Hs), orb_false_r.
  destruct s as [|d s]; cbn [Py.startswith Py.first_char] in *.
  - apply andb_false_r.
  - rewrite !eqb_hyphen, andb_true_r. apply negb_true_iff, Hc.
Qed.

(** X1.  Whatever the title, the first slug of both files consists of word
    characters ([\w]) and hyphens only, and never has two hyphens side by
    side. *)
Theorem slug_alphabet (title : string) :
  exists slug,
    App.make_slugs title !! 0%nat = Some slug /\
    Video.make_slugs title !! 0%nat = Some slug /\
    Py.all (fun c => Py.isword c || Py.ishyphen c) slug = true /\
    no_adjacent Py.ishyphen slug = true /\
    Py.contains "--" slug = false.
Proof.
  destruct (make_slugs_more title) as (base & Happ & Hword & Hna & _).
  exists base. change (Video.make_slugs title) with (App.make_slugs title).
  rewrite Happ. split; [reflexivity|]. split; [reflexivity|].
  split; [exact Hword|]. split; [exact Hna|].
  apply no_adjacent_no_pair, Hna.
Qed.

(** X2.  [make_slugs] is idempotent on its first output: the slugs of a slug
    are the slugs of the title it came from. *)
Theorem make_slugs_idempotent (title : string) :
  exists slug,
    App.make_slugs title !! 0%nat = Some slug /\
    App.make_slugs slug = App.make_slugs title /\
    Video.make_slugs slug = Video.make_slugs title.
Proof.
  destruct (make_slugs_base title)
    as (base & Happ & _ & Hlower & Hspace & Hfirst & Hlast & _).
  destruct (make_slugs_more title) as (base' & Happ' & Hword & Hna & _).
  rewrite Happ in Happ'. injection Happ' as <- _.
  exists base. change (Video.make_slugs title) with (App.make_slugs title).
  change (Video.make_slugs base) with (App.make_slugs base).
  rewrite Happ. split; [reflexivity|].
  assert (E1 : Py.strip Py.isspace base = base).
  { apply strip_fixed; intros c Hc; apply negb_true_iff.
    - exact (all_first_char _ base c Hspace Hc).
    - exact (all_last_char _ base c Hspace Hc). }
  assert (E2 : Py.lower base = base) by (apply lower_fixed, Hlower).
  assert (E3 : Py.sub_delete
                 (fun c => negb (Py.isword c || Py.isspace c || Py.ishyphen c)) base
               = base).
  { apply sub_delete_fixed. revert Hword. apply all_impl. intros c.
    destruct (Py.isword c), (Py.isspace c), (Py.ishyphen c); simpl; auto. }
  assert (E4 : Py.sub_runs Py.isspace "-" base = base)
    by (apply sub_runs_from_fixed, Hspace).
  assert (E5 : Py.sub_runs Py.ishyphen "-" base = base)
    by (apply collapse_fixed; [exact Hna | discriminate]).
  assert (E6 : Py.strip Py.ishyphen base = base)
    by (apply strip_fixed; assumption).
  assert (E : App.make_slugs base = [base; Py.quote_plus base]).
  { unfold App.make_slugs. rewrite E1, E2, E3, E4, E5, E6. reflexivity. }
  split; exact E.
Qed.

(** X3.  The first slug is empty exactly when the title has no word
    character at all (only punctuation, blanks and hyphens); both slugs are
    then empty. *)
Theorem slug_empty_iff (title : string) :
  exists slug,
    App.make_slugs title !! 0%nat = Some slug /\
    (slug = EmptyString <-> any Py.isword title = false) /\
    (any Py.isword title = false ->
     App.make_slugs title = [EmptyString; EmptyString]).
Proof.
  destruct (make_slugs_more title) as (base & Happ & _ & _ & Hsome & Hnone).
  exists base. rewrite Happ. split; [reflexivity|]. split; [split|].
  - intros ->. destruct (any Py.isword title); [|reflexivity].
    discriminate (Hsome eq_refl).
  - exact Hnone.
  - intros H. rewrite (Hnone H). reflexivity.
Qed.

(** X4.  Whatever the title, the second slug (the [quote_plus] of the first)
    is plain ASCII made of [A-Za-z0-9_.-~] and [%] only; it has no [+]
    because the first slug has no blank. *)
Theorem quoted_slug_is_ascii (title : string) :
  exists quoted,
    App.make_slugs title !! 1%nat = Some quoted /\
    Video.make_slugs title !! 1%nat = Some quoted /\
    Py.all quoted_char quoted = true /\
    Py.all Py.isascii quoted = true /\
    Py.contains "+" quoted = false.
Proof.
  destruct (make_slugs_base title) as (base & Happ & Hvideo & _ & Hspace & _).
  exists (Py.quote_plus base). rewrite Happ, Hvideo.
  split; [reflexivity|]. split; [reflexivity|].
  pose proof (quote_plus_quoted base Hspace) as Hq.
  split; [|split].
  - revert Hq. apply all_impl. intros c Hc. apply andb_true_iff in Hc. apply Hc.
  - revert Hq. apply all_impl. intros c Hc. apply andb_true_iff in Hc. apply Hc.
  - assert (H : Py.all (fun c => negb (Ascii.eqb "+" c)) (Py.quote_plus base) = true).
    { revert Hq. apply all_impl. intros c. each_char c. }
    revert H. generalize (Py.quote_plus base). intros s.
    induction s as [|c s IH]; [reflexivity|].
    simpl. intros H. apply andb_true_iff in H. destruct H as [Hc Hs].
    apply negb_true_iff in Hc. rewrite Hc, (IH Hs). reflexivity.
Qed.

(** ** More about [make_candidate_urls] and the candidate list *)

Lemma chars_append (a b : string) :
  list_ascii_of_string (a +:+ b) = list_ascii_of_string a ++ list_ascii_of_string b.
Proof. induction a as [|c a IH]; simpl; [reflexivity | rewrite IH; reflexivity]. Qed.

Lemma chars_inj (a b : string) :
  list_ascii_of_string a = list_ascii_of_string b -> a = b.
Proof.
  intros H. rewrite <- (string_of_list_ascii_of_string a), H.
  apply string_of_list_ascii_of_string.
Qed.

Lemma append_inv_head (a x y : string) : a +:+ x = a +:+ y -> x = y.
Proof. induction a as [|c a IH]; simpl; [auto | intros [= H]; auto]. Qed.

(** Two texts that end alike after a joining character have the same head
    and the same joining character. *)
Lemma join_inj (a b : string) (j1 j2 : ascii) (r : string) :
  a +:+ String j1 r = b +:+ String j2 r -> a = b /\ j1 = j2.
Proof.
  intros H. apply (f_equal list_ascii_of_string) in H.
  rewrite !chars_append in H. simpl in H.
  change (list_ascii_of_string a ++ j1 :: list_ascii_of_string r)
    with (list_ascii_of_string a ++ [j1] ++ list_ascii_of_string r) in H.
  change (list_ascii_of_string b ++ j2 :: list_ascii_of_string r)
    with (list_ascii_of_string b ++ [j2] ++ list_ascii_of_string r) in H.
  rewrite !app_assoc in H. apply app_inv_tail in H.
  apply app_inj_tail in H. destruct H as [H ->].
  split; [apply chars_inj, H | reflexivity].
Qed.

(** A candidate URL determines its shape and its slug. *)
Lemma candidate_url_inj (a b season episode : string) (i j : nat) (x : string) :
  App.make_candidate_urls a season episode !! i = Some x ->
  App.make_candidate_urls b season episode !! j = Some x ->
  i = j /\ a = b.
Proof.
  unfold App.make_candidate_urls. intros Hi Hj.
  destruct i as [|[|[|[|i]]]]; simpl in Hi; try discriminate Hi;
    destruct j as [|[|[|[|j]]]]; simpl in Hj; try discriminate Hj;
    injection Hi as <-; injection Hj as Hj;
    try (exfalso; congruence);
    repeat (injection Hj as Hj);
    apply (join_inj _ _ _ _ (season +:+ "x" +:+ episode +:+ "/")) in Hj;
    destruct Hj as [Hab Hj]; first [discriminate Hj | auto].
Qed.

Lemma candidate_urls_distinct_app (slug season episode : string) :
  NoDup (App.make_candidate_urls slug season episode).
Proof.
  apply NoDup_alt. intros i j x Hi Hj.
  apply (candidate_url_inj slug slug season episode i j x Hi Hj).
Qed.

(** X5.  For every slug, season and episode the four candidate URLs are
    pairwise different, and a candidate URL determines the slug it was built
    from. *)
Theorem candidate_urls_distinct (slug season episode : string) :
  NoDup (App.make_candidate_urls slug season episode) /\
  NoDup (Video.make_candidate_urls slug season episode) /\
  (forall slug' url,
     url ∈ App.make_candidate_urls slug season episode ->
     url ∈ App.make_candidate_urls slug' season episode -> slug = slug').
Proof.
  split; [apply candidate_urls_distinct_app|].
  split; [apply candidate_urls_distinct_app|].
  intros slug' url Hx Hx'.
  apply list_elem_of_lookup in Hx, Hx'.
  destruct Hx as [i Hi], Hx' as [j Hj].
  apply (candidate_url_inj _ _ season episode i j url Hi Hj).
Qed.

(** X6.  The eight candidates of [fetch_video_url] are pairwise different
    exactly when the two slugs differ, that is when [quote_plus] had to
    escape something. *)
Theorem candidates_distinct_iff (title season episode : string) :
  exists slug quoted,
    App.make_slugs title = [slug; quoted] /\
    (NoDup (candidates_of App.make_slugs App.make_candidate_urls title season episode)
     <-> slug <> quoted).
Proof.
  destruct (make_slugs_base title) as (base & Happ & _).
  exists base, (Py.quote_plus base). split; [exact Happ|].
  assert (Hc : candidates_of App.make_slugs App.make_candidate_urls title season episode
               = App.make_candidate_urls base season episode
                 ++ App.make_candidate_urls (Py.quote_plus base) season episode).
  { unfold candidates_of. rewrite Happ. reflexivity. }
  rewrite Hc. split.
  - intros Hnd Heq. rewrite <- Heq in Hnd.
    apply NoDup_app in Hnd. destruct Hnd as (_ & Hdisj & _).
    apply (Hdisj ("https://animedekho.co/epi/" +:+ base +:+ "-" +:+ season
                  +:+ "x" +:+ episode +:+ "/")); apply list_elem_of_here.
  - intros Hne. apply NoDup_app.
    split; [apply candidate_urls_distinct_app|].
    split; [|apply candidate_urls_distinct_app].
    intros x Hx Hx'.
    apply list_elem_of_lookup in Hx, Hx'.
    destruct Hx as [i Hi], Hx' as [j Hj].
    apply Hne, (candidate_url_inj _ _ season episode i j x Hi Hj).
Qed.

(** ** More about [VIDEO_RE] *)

Lemma match_literal_spec (lit s m rest : string) :
  Py.match_literal lit s = Some (m, rest) -> s = m +:+ rest /\ Py.lower m = lit.
Proof.
  revert s m rest. induction lit as [|a lit IH]; intros s m rest; simpl.
  - intros [= <- <-]. auto.
  - destruct s as [|b s]; [discriminate|].
    destruct (Ascii.eqb_spec a (Py.lower_char b)) as [->|]; [|discriminate].
    destruct (Py.match_literal lit s) as [[m' rest']|] eqn:Hm; [|discriminate].
    intros [= <- <-]. destruct (IH s m' rest' Hm) as [-> <-]. auto.
Qed.

Lemma match_literal_complete (host rest : string) :
  Py.match_literal (Py.lower host) (host +:+ rest) = Some (host, rest).
Proof.
  induction host as [|b host IH]; simpl; [reflexivity|].
  rewrite Ascii.eqb_refl, IH. reflexivity.
Qed.

Lemma take_while_spec (p : ascii -> bool) (s : string) :
  exists post,
    s = Py.take_while p s +:+ post /\
    Py.all p (Py.take_while p s) = true /\
    (forall c, Py.first_char post = Some c -> p c = false).
Proof.
  induction s as [|c s (post & Hs & Hall & Hpost)]; simpl.
  - exists EmptyString. repeat split. discriminate.
  - destruct (p c) eqn:Hc.
    + exists post. split; [exact (f_equal (String c) Hs)|].
      split; [simpl; rewrite Hc; exact Hall | exact Hpost].
    + exists (String c s). repeat split. intros d [= <-]. exact Hc.
Qed.

Lemma search_spec (lit url m : string) :
  Py.search lit url = Some m ->
  exists pre suffix, url = pre +:+ suffix /\ Py.match_at lit suffix = Some m.
Proof.
  induction url as [|c url IH]; simpl.
  - destruct (Py.match_at lit EmptyString) eqn:Hm; [|discriminate].
    intros [= <-]. exists EmptyString, EmptyString. auto.
  - destruct (Py.match_at lit (String c url)) eqn:Hm.
    + intros [= <-]. exists EmptyString, (String c url). auto.
    + intros H. destruct (IH H) as (pre & suffix & -> & Hs).
      exists (String c pre), suffix. auto.
Qed.

(** X7.  What [VIDEO_RE] captures: a piece of the request URL made of the
    host prefix [https://play.zephyrflick.top/video/] in any letter case
    followed by a non-empty identifier of letters, digits, hyphens and
    underscores, cut at the first character outside this class. *)
Theorem video_re_match_shape (url m : string) :
  App.VIDEO_RE_search url = Some m ->
  Video.VIDEO_RE_search url = Some m /\
  exists pre host id post,
    url = pre +:+ host +:+ id +:+ post /\
    m = host +:+ id /\
    Py.lower host = "https://play.zephyrflick.top/video/" /\
    id <> EmptyString /\
    Py.all Py.url_class id = true /\
    (forall c, Py.first_char post = Some c -> Py.url_class c = false).
Proof.
  intros H. split; [exact H|].
  destruct (search_spec _ _ _ H) as (pre & suffix & -> & Hat).
  unfold Py.match_at in Hat.
  destruct (Py.match_literal _ suffix) as [[host rest]|] eqn:Hlit; [|discriminate].
  destruct (match_literal_spec _ _ _ _ Hlit) as [-> Hhost].
  destruct (take_while_spec Py.url_class rest) as (post & Hrest & Hall & Hpost).
  destruct (Py.take_while Py.url_class rest) as [|c id] eqn:Hid; [discriminate|].
  injection Hat as <-.
  exists pre, host, (String c id), post.
  rewrite Hrest at 1. repeat split; auto; discriminate.
Qed.

Lemma video_re_match_shape_witness :
  App.VIDEO_RE_search "https://Play.ZephyrFlick.top/video/abc123?autoplay=1"
    = Some "https://Play.ZephyrFlick.top/video/abc123" /\
  Video.VIDEO_RE_search "https://Play.ZephyrFlick.top/video/abc123?autoplay=1"
    = Some "https://Play.ZephyrFlick.top/video/abc123" /\
  exists pre host id post,
    "https://Play.ZephyrFlick.top/video/abc123?autoplay=1"
      = pre +:+ host +:+ id +:+ post /\
    "https://Play.ZephyrFlick.top/video/abc123" = host +:+ id /\
    Py.lower host = "https://play.zephyrflick.top/video/" /\
    id <> EmptyString /\
    Py.all Py.url_class id = true /\
    (forall c, Py.first_char post = Some c -> Py.url_class c = false).
Proof.
  split; [reflexivity|].
  apply (video_re_match_shape
           "https://Play.ZephyrFlick.top/video/abc123?autoplay=1"
           "https://Play.ZephyrFlick.top/video/abc123").
  reflexivity.
Defined.

(** X8.  [VIDEO_RE] misses nothing: a request URL that contains the host
    prefix in any letter case followed by at least one identifier character
    always gives a match. *)
Theorem video_re_complete (pre host rest : string) (c : ascii) :
  Py.lower host = "https://play.zephyrflick.top/video/" ->
  Py.url_class c = true ->
  exists m, App.VIDEO_RE_search (pre +:+ host +:+ String c rest) = Some m.
Proof.
  intros Hhost Hc. unfold App.VIDEO_RE_search.
  induction pre as [|a pre IH].
  - assert (Hat : Py.match_at "https://play.zephyrflick.top/video/"
                    (host +:+ String c rest)
                  = Some (host +:+ Py.take_while Py.url_class (String c rest))).
    { unfold Py.match_at. rewrite <- Hhost, match_literal_complete.
      simpl. rewrite Hc. reflexivity. }
    change (EmptyString +:+ host +:+ String c rest) with (host +:+ String c rest).
    destruct (host +:+ String c rest) eqn:Hs;
      cbn [Py.search]; rewrite Hat; eauto.
  - change (String a pre +:+ host +:+ String c rest)
      with (String a (pre +:+ host +:+ String c rest)).
    cbn [Py.search].
    destruct (Py.match_at _ (String a (pre +:+ host +:+ String c rest))); eauto.
Qed.

Lemma video_re_complete_witness :
  Py.lower "HTTPS://PLAY.ZEPHYRFLICK.TOP/VIDEO/" = "https://play.zephyrflick.top/video/" /\
  Py.url_class "a" = true /\
  exists m,
    App.VIDEO_RE_search
      ("GET " +:+ "HTTPS://PLAY.ZEPHYRFLICK.TOP/VIDEO/" +:+ String "a" "b.m3u8")
    = Some m.
Proof.
  split; [reflexivity|]. split; [reflexivity|].
  apply (video_re_complete "GET " "HTTPS://PLAY.ZEPHYRFLICK.TOP/VIDEO/" "b.m3u8" "a");
    reflexivity.
Defined.

(** ** The events of the scan *)

Lemma only_loop_events_ret {A} (a : A) : only_loop_events (ret a).
Proof. intros st. exists (Return a), st, []. rewrite app_nil_r. auto. Qed.

Lemma only_loop_events_answer (r : option string) : only_loop_events (answer r).
Proof.
  intros st. destruct r as [msg|]; simpl.
  - exists (Raise msg), st, []. rewrite app_nil_r. auto.
  - exists (Return tt), st, []. rewrite app_nil_r. auto.
Qed.

Lemma only_loop_events_log (ev : event) :
  is_loop_event ev = true -> only_loop_events (log ev).
Proof.
  intros Hev st. eexists _, _, [ev]. split; [reflexivity|].
  simpl. rewrite Hev. auto.
Qed.

Lemma only_loop_events_bind {A B} (m : Eff A) (k : A -> Eff B) :
  only_loop_events m -> (forall a, only_loop_events (k a)) ->
  only_loop_events (bind m k).
Proof.
  intros Hm Hk st. unfold bind.
  destruct (Hm st) as (r & st1 & extra1 & -> & Htr1 & Hall1).
  destruct r as [a|msg].
  - destruct (Hk a st1) as (r2 & st2 & extra2 & -> & Htr2 & Hall2).
    exists r2, st2, (extra1 ++ extra2). split; [reflexivity|].
    rewrite Htr2, Htr1, forallb_app, Hall1, Hall2, app_assoc. auto.
  - exists (Raise msg), st1, extra1. auto.
Qed.

Lemma only_loop_events_try {A} (m : Eff A) (h : string -> Eff A) :
  only_loop_events m -> (forall msg, only_loop_events (h msg)) ->
  only_loop_events (try_except m h).
Proof.
  intros Hm Hh st. unfold try_except.
  destruct (Hm st) as (r & st1 & extra1 & -> & Htr1 & Hall1).
  destruct r as [a|msg].
  - exists (Return a), st1, extra1. auto.
  - destruct (Hh msg st1) as (r2 & st2 & extra2 & -> & Htr2 & Hall2).
    exists r2, st2, (extra1 ++ extra2). split; [reflexivity|].
    rewrite Htr2, Htr1, forallb_app, Hall1, Hall2, app_assoc. auto.
Qed.

Section ScannerEvents.

Variable w : world.
Variable browser_engine : engine.
Variable user_agent : string.
Variable search : string -> option string.
Variable make_slugs : string -> list string.
Variable make_candidate_urls : string -> string -> string -> list string.
Hypothesis search_truthy : forall url m, search url = Some m -> truthy_str m = true.

Lemma only_loop_events_emit (urls : list string) : only_loop_events (emit search urls).
Proof.
  intros st. rewrite emit_spec. unfold after_requests.
  destruct (listening st); [destruct (first_match search urls)|].
  - eexists _, _, [EvRemoveListener]. auto.
  - eexists _, _, []. rewrite app_nil_r. auto.
  - eexists _, _, []. rewrite app_nil_r. auto.
Qed.

Lemma only_loop_events_goto (url : string) : only_loop_events (page_goto w search url).
Proof.
  intros st. unfold page_goto. destruct (goto w _ url) as [requests r].
  revert st. apply only_loop_events_bind; [apply only_loop_events_log; reflexivity|].
  intros _. apply only_loop_events_bind; [apply only_loop_events_emit|].
  intros _. apply only_loop_events_answer.
Qed.

Lemma only_loop_events_wait (ms : Z) :
  only_loop_events (page_wait_for_timeout w search ms).
Proof.
  intros st. unfold page_wait_for_timeout. destruct (wait_for_timeout w _) as [requests r].
  revert st. apply only_loop_events_bind; [apply only_loop_events_log; reflexivity|].
  intros _. apply only_loop_events_bind; [apply only_loop_events_emit|].
  intros _. apply only_loop_events_answer.
Qed.

Lemma only_loop_events_loop (candidates : list string) :
  only_loop_events (candidate_loop w search candidates).
Proof.
  induction candidates as [|url rest IH]; simpl; [apply only_loop_events_ret|].
  apply only_loop_events_bind.
  - intros st. exists (Return (found st)), st, []. rewrite app_nil_r. auto.
  - intros f. destruct (truthy_opt f); [apply only_loop_events_ret|].
    apply only_loop_events_bind; [|intros _; exact IH].
    apply only_loop_events_try; [|intros _; apply only_loop_events_ret].
    apply only_loop_events_bind; [apply only_loop_events_goto|].
    intros _. apply only_loop_events_wait.
Qed.

End ScannerEvents.

(** A leaf of the case analysis of [scan] for its events. *)
Ltac scan_leaf loop :=
  eexists _, loop; (split; [reflexivity|]); simpl;
  rewrite <- ?app_assoc; simpl;
  repeat split; auto;
  let H := fresh "Hreached" in
  try (intros H; destruct H as (? & ? & ? & ?); discriminate).

Section ScannerSummary.

Variable w : world.
Variable browser_engine : engine.
Variable user_agent : string.
Variable search : string -> option string.
Variable make_slugs : string -> list string.
Variable make_candidate_urls : string -> string -> string -> list string.
Hypothesis search_truthy : forall url m, search url = Some m -> truthy_str m = true.

(** The body of the [try] statement gives the expected result and adds the
    expected events. *)
Lemma scan_summary (animetitle season episode : string) (st0 : scan_state) :
  navigated (trace st0) = [] ->
  let candidates := candidates_of make_slugs make_candidate_urls animetitle season episode in
  let outcome := loop_outcome w search 0 candidates in
  exists st' loop,
    scan w browser_engine user_agent search make_slugs make_candidate_urls
         animetitle season episode st0
      = (scan_result_of w browser_engine user_agent outcome.2, st') /\
    trace st' = trace st0 ++ scan_events w browser_engine user_agent loop /\
    forallb is_loop_event loop = true /\
    (loop_reached w browser_engine user_agent -> navigated loop = outcome.1).
Proof.
  intros Hnav candidates outcome.
  unfold scan, scan_result_of, scan_events, loop_reached, first_error,
    with_manager, call, page_on, bind, log, answer,
    set_found, set_listening, get_found, ret, raise.
  fold candidates. simpl.
  destruct (playwright_start w) as [e0|].
  { scan_leaf (@nil event). }
  destruct (launch w browser_engine) as [e1|]; simpl.
  { destruct (playwright_stop w) as [e6|]; scan_leaf (@nil event). }
  destruct (new_context w user_agent) as [e2|]; simpl.
  { destruct (playwright_stop w) as [e6|]; scan_leaf (@nil event). }
  destruct (new_page w) as [e3|]; simpl.
  { destruct (playwright_stop w) as [e6|]; scan_leaf (@nil event). }
  match goal with
  | |- context [candidate_loop _ _ _ ?st] =>
      destruct (candidate_loop_spec w search search_truthy candidates st 0%nat
                  eq_refl eq_refl)
        as (st1 & Hrun & Hnav1 & Hfound1);
        [simpl; rewrite !navigated_snoc, Hnav; reflexivity|];
      destruct (only_loop_events_loop w search candidates st)
        as (r & st1' & loop & Hrun' & Htr & Hall)
  end.
  rewrite Hrun in Hrun'. injection Hrun' as <- <-.
  rewrite Hrun. fold outcome in Hnav1, Hfound1.
  simpl in Htr, Hnav1.
  assert (Hloop : navigated loop = outcome.1).
  { rewrite Htr in Hnav1. unfold navigated in Hnav1 at 1.
    rewrite omap_app in Hnav1. apply app_inv_head in Hnav1. exact Hnav1. }
  destruct (context_close w) as [e4|]; simpl.
  { destruct (playwright_stop w) as [e6|]; scan_leaf loop;
      rewrite Htr, <- ?app_assoc; reflexivity. }
  destruct (browser_close w) as [e5|]; simpl.
  { destruct (playwright_stop w) as [e6|]; scan_leaf loop;
      rewrite Htr, <- ?app_assoc; reflexivity. }
  rewrite Hfound1.
  destruct (outcome.2) as [m|] eqn:Hm;
    [rewrite (loop_outcome_truthy w search search_truthy _ _ _ Hm)|];
    destruct (playwright_stop w) as [e6|]; scan_leaf loop;
    rewrite Htr, <- ?app_assoc; reflexivity.
Qed.

End ScannerSummary.

(** ** What [fetch_video_url] visits and returns *)

Lemma fetch_summary (w : world) (e : engine) (ua : string)
    (title season episode : string) :
  let candidates :=
    candidates_of App.make_slugs App.make_candidate_urls title season episode in
  let outcome := loop_outcome w App.VIDEO_RE_search 0 candidates in
  exists loop,
    fetch_video_url_with w e ua App.VIDEO_RE_search App.make_slugs
      App.make_candidate_urls title season episode
    = (match scan_result_of w e ua outcome.2 with
       | Return result => result
       | Raise msg => error_result msg
       end,
       EvFetch title season episode :: scan_events w e ua loop) /\
    forallb is_loop_event loop = true /\
    (loop_reached w e ua -> navigated loop = outcome.1).
Proof.
  intros candidates outcome.
  destruct (scan_summary w e ua App.VIDEO_RE_search App.make_slugs
              App.make_candidate_urls video_re_truthy title season episode
              (initial_state title season episode) eq_refl)
    as (st' & loop & Hrun & Htr & Hall & Hnav).
  exists loop. split; [|auto].
  unfold fetch_video_url_with. rewrite Hrun. fold candidates. fold outcome.
  rewrite Htr. destruct (scan_result_of w e ua outcome.2); reflexivity.
Qed.

Lemma navigated_scan_events (w : world) (e : engine) (ua : string)
    (loop : list event) :
  loop_reached w e ua -> navigated (scan_events w e ua loop) = navigated loop.
Proof.
  intros (H0 & H1 & H2 & H3). unfold scan_events. rewrite H0, H1, H2, H3.
  unfold navigated. simpl. rewrite !omap_app.
  destruct (context_close w); simpl; rewrite ?app_nil_r; reflexivity.
Qed.

Lemma first_match_elem (search : string -> option string) (urls : list string)
    (m : string) :
  first_match search urls = Some m ->
  exists request, request ∈ urls /\ search request = Some m.
Proof.
  induction urls as [|u urls IH]; simpl; [discriminate|].
  destruct (search u) as [m'|] eqn:Hu.
  - intros [= <-]. exists u. split; [apply list_elem_of_here | exact Hu].
  - intros H. destruct (IH H) as (request & Hin & Hr).
    exists request. split; [apply list_elem_of_further, Hin | exact Hr].
Qed.

Lemma loop_outcome_found (w : world) (search : string -> option string)
    (n : nat) (candidates : list string) (m : string) :
  (loop_outcome w search n candidates).2 = Some m ->
  exists k url,
    candidates !! k = Some url /\
    first_match search (observed w (n + k) url) = Some m.
Proof.
  revert n. induction candidates as [|u rest IH]; intros n; simpl; [discriminate|].
  destruct (first_match search (observed w n u)) as [m'|] eqn:Hm.
  - simpl. intros [= <-]. exists 0%nat, u. rewrite Nat.add_0_r. auto.
  - specialize (IH (S n)).
    destruct (loop_outcome w search (S n) rest) as [visited f]. simpl.
    intros Hf. destruct (IH Hf) as (k & url & Hk & Hfm).
    exists (S k), url. replace (n + S k)%nat with (S n + k)%nat by lia. auto.
Qed.

Lemma loop_outcome_first (w : world) (search : string -> option string)
    (n k : nat) (candidates : list string) (url m : string) :
  candidates !! k = Some url ->
  first_match search (observed w (n + k) url) = Some m ->
  (forall j u, (j < k)%nat -> candidates !! j = Some u ->
               captures w search (n + j) u = false) ->
  loop_outcome w search n candidates = (take (S k) candidates, Some m).
Proof.
  revert n k. induction candidates as [|u rest IH]; intros n k; [discriminate|].
  destruct k as [|k]; simpl.
  - intros [= <-]. rewrite Nat.add_0_r. intros -> _. reflexivity.
  - intros Hk Hm Hbefore.
    pose proof (Hbefore 0%nat u ltac:(lia) eq_refl) as H0.
    unfold captures in H0. rewrite Nat.add_0_r in H0.
    destruct (first_match search (observed w n u)); [discriminate|].
    rewrite (IH (S n) k Hk); [reflexivity | |].
    + replace (S n + k)%nat with (n + S k)%nat by lia. exact Hm.
    + intros j u' Hj Hu'. replace (S n + j)%nat with (n + S j)%nat by lia.
      apply Hbefore; [lia | exact Hu'].
Qed.

(** X9.  The scan stops exactly at the first candidate whose page sends a
    matching request: when the loop is reached and candidate [k] is the
    first one that captures, the pages visited are the candidates [0..k],
    each once and in order; and when the browser is then released without
    an exception the result carries the first match of that page, later
    matching requests being ignored. *)
Theorem first_match_wins (w : world) (title season episode : string)
    (k : nat) (url m : string) :
  let candidates :=
    candidates_of App.make_slugs App.make_candidate_urls title season episode in
  loop_reached w Firefox App.user_agent ->
  candidates !! k = Some url ->
  first_match App.VIDEO_RE_search (observed w k url) = Some m ->
  (forall j u, (j < k)%nat -> candidates !! j = Some u ->
               captures w App.VIDEO_RE_search j u = false) ->
  navigated (App.fetch_video_url w title season episode).2 = take (S k) candidates /\
  (teardown_error w = None ->
   (App.fetch_video_url w title season episode).1 = found_result m).
Proof.
  intros candidates Hreach Hk Hm Hbefore.
  destruct (fetch_summary w Firefox App.user_agent title season episode)
    as (loop & Hfetch & _ & Hnav).
  fold candidates in Hfetch, Hnav.
  rewrite (loop_outcome_first w App.VIDEO_RE_search 0 k candidates url m Hk Hm Hbefore)
    in Hfetch, Hnav.
  unfold App.fetch_video_url. rewrite Hfetch. cbn [fst snd].
  split.
  - change (navigated (EvFetch title season episode :: ?l)) with (navigated l).
    rewrite (navigated_scan_events _ _ _ _ Hreach). apply Hnav, Hreach.
  - destruct Hreach as (H0 & H1 & H2 & H3).
    unfold teardown_error, scan_result_of, first_error. rewrite H0, H1, H2, H3.
    destruct (playwright_stop w); [discriminate|].
    destruct (context_close w); [discriminate|].
    destruct (browser_close w); [discriminate|]. reflexivity.
Qed.

Lemma first_match_wins_witness :
  loop_reached third_candidate_world Firefox App.user_agent /\
  navigated (App.fetch_video_url third_candidate_world "naruto" "1" "5").2 =
    take 3 (candidates_of App.make_slugs App.make_candidate_urls "naruto" "1" "5") /\
  (teardown_error third_candidate_world = None ->
   (App.fetch_video_url third_candidate_world "naruto" "1" "5").1 =
     found_result "https://play.zephyrflick.top/video/abc123").
Proof.
  split; [repeat split|].
  apply (first_match_wins third_candidate_world "naruto" "1" "5" 2
           "https://animedekho.co/epi/naruto/1x5/"
           "https://play.zephyrflick.top/video/abc123").
  - repeat split.
  - reflexivity.
  - reflexivity.
  - intros j u Hj Hu.
    destruct j as [|[|j]]; [| |lia]; injection Hu as <-; reflexivity.
Defined.

(** X10.  A returned [video_url] is never invented: it is the [VIDEO_RE]
    match of a request that one of the candidate pages sent while it was
    being processed. *)
Theorem video_url_provenance (w : world) (title season episode m : string) :
  (App.fetch_video_url w title season episode).1 !! "video_url" = Some (VStr m) ->
  exists k url request,
    candidates_of App.make_slugs App.make_candidate_urls title season episode !! k
      = Some url /\
    request ∈ observed w k url /\
    App.VIDEO_RE_search request = Some m.
Proof.
  intros Hurl.
  destruct (fetch_spec w Firefox App.user_agent App.VIDEO_RE_search App.make_slugs
              App.make_candidate_urls video_re_truthy title season episode)
    as (_ & Hres & _).
  unfold App.fetch_video_url in Hurl.
  destruct Hres as [[msg Hres] | Hres]; rewrite Hres in Hurl; [discriminate Hurl|].
  destruct (loop_outcome w App.VIDEO_RE_search 0 _).2 as [m'|] eqn:Hm;
    [|discriminate Hurl].
  change (found_result m' !! "video_url") with (Some (VStr m')) in Hurl.
  injection Hurl as ->.
  destruct (loop_outcome_found _ _ _ _ _ Hm) as (k & url & Hk & Hfm).
  destruct (first_match_elem _ _ _ Hfm) as (request & Hin & Hr).
  exists k, url, request. auto.
Qed.

Lemma video_url_provenance_witness :
  (App.fetch_video_url third_candidate_world "naruto" "1" "5").1 !! "video_url"
    = Some (VStr "https://play.zephyrflick.top/video/abc123") /\
  exists k url request,
    candidates_of App.make_slugs App.make_candidate_urls "naruto" "1" "5" !! k
      = Some url /\
    request ∈ observed third_candidate_world k url /\
    App.VIDEO_RE_search request = Some "https://play.zephyrflick.top/video/abc123".
Proof.
  split; [reflexivity|].
  apply (video_url_provenance third_candidate_world "naruto" "1" "5"
           "https://play.zephyrflick.top/video/abc123").
  reflexivity.
Defined.

(** X11.  A failing navigation is neither fatal nor retried: when the loop
    is reached and no candidate captures a match, every candidate is
    navigated exactly once, in order, whatever [page.goto] and
    [page.wait_for_timeout] raise, and the result is never the error
    dictionary of a navigation. *)
Theorem every_candidate_tried_once (w : world) (title season episode : string) :
  let candidates :=
    candidates_of App.make_slugs App.make_candidate_urls title season episode in
  loop_reached w Firefox App.user_agent ->
  (forall k url, candidates !! k = Some url ->
                 captures w App.VIDEO_RE_search k url = false) ->
  navigated (App.fetch_video_url w title season episode).2 = candidates /\
  (App.fetch_video_url w title season episode).1 =
    match teardown_error w with
    | Some msg => error_result msg
    | None => not_found_result
    end.
Proof.
  intros candidates Hreach Hno.
  destruct (fetch_summary w Firefox App.user_agent title season episode)
    as (loop & Hfetch & _ & Hnav).
  fold candidates in Hfetch, Hnav.
  rewrite (loop_outcome_no_capture w App.VIDEO_RE_search 0 candidates Hno)
    in Hfetch, Hnav.
  unfold App.fetch_video_url. rewrite Hfetch. cbn [fst snd].
  split.
  - change (navigated (EvFetch title season episode :: ?l)) with (navigated l).
    rewrite (navigated_scan_events _ _ _ _ Hreach). apply Hnav, Hreach.
  - destruct Hreach as (H0 & H1 & H2 & H3).
    unfold teardown_error, scan_result_of, first_error. rewrite H0, H1, H2, H3.
    destruct (playwright_stop w); [reflexivity|].
    destruct (context_close w); [reflexivity|].
    destruct (browser_close w); reflexivity.
Qed.

Lemma every_candidate_tried_once_witness :
  loop_reached unreachable_site_world Firefox App.user_agent /\
  navigated (App.fetch_video_url unreachable_site_world "naruto" "1" "5").2
    = candidates_of App.make_slugs App.make_candidate_urls "naruto" "1" "5" /\
  (App.fetch_video_url unreachable_site_world "naruto" "1" "5").1 = not_found_result.
Proof.
  split; [repeat split|].
  apply (every_candidate_tried_once unreachable_site_world "naruto" "1" "5").
  - repeat split.
  - intros k url _. reflexivity.
Defined.

(** X12.  A failure while the browser is released hides the match: when
    the loop is reached and [context.close()], [browser.close()] or the
    driver's stop raises, [fetch_video_url] returns the error dictionary of
    that exception (the stop's if it raises), even if a video URL had been
    captured. *)
Theorem teardown_failure_hides_match (w : world) (title season episode msg : string) :
  loop_reached w Firefox App.user_agent ->
  teardown_error w = Some msg ->
  (App.fetch_video_url w title season episode).1 = error_result msg /\
  (App.fetch_video_url w title season episode).1 !! "video_url" = None.
Proof.
  intros (H0 & H1 & H2 & H3) Hdown.
  destruct (fetch_summary w Firefox App.user_agent title season episode)
    as (loop & Hfetch & _).
  unfold App.fetch_video_url. rewrite Hfetch. cbn [fst snd].
  assert (H : scan_result_of w Firefox App.user_agent
                (loop_outcome w App.VIDEO_RE_search 0
                   (candidates_of App.make_slugs App.make_candidate_urls
                      title season episode)).2
              = Raise msg).
  { revert Hdown. unfold teardown_error, scan_result_of, first_error.
    rewrite H0, H1, H2, H3.
    destruct (playwright_stop w); [intros [= ->]; reflexivity|].
    destruct (context_close w); [intros [= ->]; reflexivity|].
    destruct (browser_close w); [intros [= ->]; reflexivity | discriminate]. }
  rewrite H. split; reflexivity.
Qed.

Lemma teardown_failure_hides_match_witness :
  loop_reached close_failure_world Firefox App.user_agent /\
  teardown_error close_failure_world = Some "Browser.close: Connection closed" /\
  captures close_failure_world App.VIDEO_RE_search 2
    "https://animedekho.co/epi/naruto/1x5/" = true /\
  (App.fetch_video_url close_failure_world "naruto" "1" "5").1
    = error_result "Browser.close: Connection closed" /\
  (App.fetch_video_url close_failure_world "naruto" "1" "5").1 !! "video_url" = None.
Proof.
  split; [repeat split|]. split; [reflexivity|]. split; [reflexivity|].
  apply (teardown_failure_hides_match close_failure_world "naruto" "1" "5"
           "Browser.close: Connection closed"); [repeat split | reflexivity].
Defined.

(** ** The events of [fetch_video_url] *)

Lemma loop_event_elem (loop : list event) (ev : event) :
  forallb is_loop_event loop = true -> ev ∈ loop -> is_loop_event ev = true.
Proof.
  intros Hall Hin. apply list_elem_of_In in Hin.
  exact (proj1 (forallb_forall is_loop_event loop) Hall ev Hin).
Qed.

(** Decide whether a given event occurs in the events of a scan once the
    answers of the browser are known. *)
Ltac event_membership Hall :=
  repeat match goal with
         | |- ~ _ => intros ?
         | H : _ \/ _ |- _ => destruct H
         | H : _ /\ _ |- _ => destruct H
         | H : False |- _ => destruct H
         | H : _ = _ |- _ => discriminate H
         | H : _ ∈ [] |- _ => apply elem_of_nil in H
         | H : _ ∈ _ :: _ |- _ => apply elem_of_cons in H
         | H : _ ∈ _ ++ _ |- _ => apply elem_of_app in H
         | H : _ ∈ _ |- _ => apply (loop_event_elem _ _ Hall) in H
         end.

Lemma driver_stopped_once_with (w : world) (e : engine) (ua : string)
    (title season episode : string) :
  let r := fetch_video_url_with w e ua App.VIDEO_RE_search App.make_slugs
             App.make_candidate_urls title season episode in
  match playwright_start w with
  | Some msg =>
      r.2 = [EvFetch title season episode; EvStart] /\ r.1 = error_result msg
  | None =>
      exists tr,
        r.2 = EvFetch title season episode :: EvStart :: tr ++ [EvStop] /\
        (EvStop ∉ tr) /\ (EvStart ∉ tr) /\
        (forall a b c, EvFetch a b c ∉ tr)
  end.
Proof.
  intros r. unfold r.
  destruct (fetch_summary w e ua title season episode) as (loop & -> & Hall & _).
  unfold scan_events, scan_result_of. cbn [fst snd].
  destruct (playwright_start w) as [msg|]; [split; reflexivity|].
  eexists. split; [reflexivity|].
  destruct (launch w e), (new_context w ua), (new_page w), (context_close w);
    repeat split; try intros a b c; event_membership Hall.
Qed.

(** X13.  Once the Playwright driver has started it is stopped on every
    path, exactly once and as the last thing [fetch_video_url] does (in both
    files); when the driver cannot start nothing else is called and the
    result is the error dictionary of that exception. *)
Theorem driver_stopped_once (w : world) (title season episode : string) :
  match playwright_start w with
  | Some msg =>
      (App.fetch_video_url w title season episode).2
        = [EvFetch title season episode; EvStart] /\
      (App.fetch_video_url w title season episode).1 = error_result msg /\
      (Video.fetch_video_url w title season episode).2
        = [EvFetch title season episode; EvStart] /\
      (Video.fetch_video_url w title season episode).1 = error_result msg
  | None =>
      exists tr tr',
        (App.fetch_video_url w title season episode).2
          = EvFetch title season episode :: EvStart :: tr ++ [EvStop] /\
        (Video.fetch_video_url w title season episode).2
          = EvFetch title season episode :: EvStart :: tr' ++ [EvStop] /\
        (EvStop ∉ tr) /\ (EvStart ∉ tr) /\ (EvStop ∉ tr') /\ (EvStart ∉ tr')
  end.
Proof.
  pose proof (driver_stopped_once_with w Firefox App.user_agent title season episode)
    as Happ.
  pose proof (driver_stopped_once_with w Chromium Video.user_agent title season episode)
    as Hvideo.
  cbv zeta in Happ, Hvideo.
  destruct (playwright_start w) as [msg|].
  - destruct Happ as [? ?], Hvideo as [? ?]. auto.
  - destruct Happ as (tr & ? & ? & ? & _), Hvideo as (tr' & ? & ? & ? & _).
    exists tr, tr'. auto 10.
Qed.

Lemma browser_closed_iff_with (w : world) (e : engine) (ua : string)
    (title season episode : string) :
  let tr := (fetch_video_url_with w e ua App.VIDEO_RE_search App.make_slugs
               App.make_candidate_urls title season episode).2 in
  (EvContextClose ∈ tr <-> loop_reached w e ua) /\
  (EvBrowserClose ∈ tr <-> loop_reached w e ua /\ context_close w = None).
Proof.
  intros tr. unfold tr.
  destruct (fetch_summary w e ua title season episode) as (loop & -> & Hall & _).
  unfold scan_events, loop_reached. cbn [fst snd].
  destruct (playwright_start w), (launch w e), (new_context w ua), (new_page w),
    (context_close w);
    (split; (split;
     [ intros H;
       first [ solve [exfalso; event_membership Hall] | solve [auto 10] ]
     | intros H;
       first [ solve [decompose [and] H; discriminate]
             | solve [clear; set_solver] ] ])).
Qed.

(** X14.  [browser.close()] is called only on the path where everything
    before it returned: the events of [fetch_video_url] contain it exactly
    when the four calls before the loop and [context.close()] return, and
    contain [context.close()] exactly when the four calls before the loop
    return.  After a failure of [new_context], [new_page] or
    [context.close()] the browser is left to the driver's stop. *)
Theorem browser_closed_iff (w : world) (title season episode : string) :
  (EvBrowserClose ∈ (App.fetch_video_url w title season episode).2 <->
   loop_reached w Firefox App.user_agent /\ context_close w = None) /\
  (EvContextClose ∈ (App.fetch_video_url w title season episode).2 <->
   loop_reached w Firefox App.user_agent) /\
  (EvBrowserClose ∈ (Video.fetch_video_url w title season episode).2 <->
   loop_reached w Chromium Video.user_agent /\ context_close w = None) /\
  (EvContextClose ∈ (Video.fetch_video_url w title season episode).2 <->
   loop_reached w Chromium Video.user_agent).
Proof.
  destruct (browser_closed_iff_with w Firefox App.user_agent title season episode)
    as [Hc Hb].
  destruct (browser_closed_iff_with w Chromium Video.user_agent title season episode)
    as [Hc' Hb'].
  split; [exact Hb | split; [exact Hc | split; [exact Hb' | exact Hc']]].
Qed.

(** ** More about the endpoint *)

Lemma failure_status_error (msg : string) :
  App.failure_status (error_result msg)
  = Some (if Py.contains "No video URL found" msg then 404%Z else 500%Z).
Proof.
  unfold App.failure_status.
  change (error_result msg !! "error")
    with (Some (VStr ("An error occurred: " +:+ msg))).
  rewrite <- (contains_after_prefix msg). reflexivity.
Qed.

(** X15.  [/api/video] always answers: the handler never raises, the status
    is 200, 400, 404 or 500, the body is fully populated, and its [success]
    field is true exactly when the status is 200. *)
Theorem response_is_coherent (w : world) (args : list (string * string)) :
  exists body status,
    (App.get_video_url w args).1 = Return (body, status) /\
    (status = 200 \/ status = 400 \/ status = 404 \/ status = 500)%Z /\
    body !! "success" = Some (VBool (status =? 200)%Z) /\
    fully_populated body.
Proof.
  unfold App.get_video_url.
  assert (Hmissing : exists body status,
            Return (App.missing_parameters, 400%Z) = Return (body, status) /\
            (status = 200 \/ status = 400 \/ status = 404 \/ status = 500)%Z /\
            body !! "success" = Some (VBool (status =? 200)%Z) /\
            fully_populated body).
  { eexists _, _. split; [reflexivity|]. split; [auto|]. split; [reflexivity|].
    exists false. split; [reflexivity|]. split; [eexists|]; reflexivity. }
  assert (Hinvalid : exists body status,
            Return (App.invalid_number, 400%Z) = Return (body, status) /\
            (status = 200 \/ status = 400 \/ status = 404 \/ status = 500)%Z /\
            body !! "success" = Some (VBool (status =? 200)%Z) /\
            fully_populated body).
  { eexists _, _. split; [reflexivity|]. split; [auto|]. split; [reflexivity|].
    exists false. split; [reflexivity|]. split; [eexists|]; reflexivity. }
  destruct (App.args_get "title" args) as [t|]; [|exact Hmissing].
  destruct (App.args_get "season" args) as [s|]; [|exact Hmissing].
  destruct (App.args_get "episode" args) as [e|]; [|exact Hmissing].
  destruct (negb (truthy_str t) || negb (truthy_str s) || negb (truthy_str e));
    [exact Hmissing|].
  destruct (Py.int (int_max_str_digits w) s); [|exact Hinvalid].
  destruct (Py.int (int_max_str_digits w) e); [|exact Hinvalid].
  destruct (fetch_spec w Firefox App.user_agent App.VIDEO_RE_search App.make_slugs
              App.make_candidate_urls video_re_truthy t s e)
    as (_ & Hres & _).
  unfold App.fetch_video_url.
  destruct (fetch_video_url_with _ _ _ _ _ _ t s e) as [result tr].
  cbn [fst] in Hres.
  destruct Hres as [[msg ->] | ->].
  - change (error_result msg !! "success") with (Some (VBool false)).
    cbn [truthy]. rewrite failure_status_error.
    destruct (Py.contains "No video URL found" msg);
      (eexists _, _; split; [reflexivity|]; split; [auto|]; split; [reflexivity|];
       apply error_result_populated).
  - destruct (loop_outcome _ _ _ _).2 as [m|].
    + eexists _, _. split; [reflexivity|]. split; [auto|]. split; [reflexivity|].
      apply found_result_populated.
    + eexists _, _. split; [reflexivity|]. split; [auto|]. split; [reflexivity|].
      apply not_found_result_populated.
Qed.

Lemma get_video_url_events (w : world) (args : list (string * string))
    (title season episode : string) :
  well_formed_query w args title season episode ->
  (App.get_video_url w args).2 = (App.fetch_video_url w title season episode).2.
Proof.
  intros Hq. rewrite (get_video_url_well_formed w args title season episode Hq).
  destruct (App.fetch_video_url w title season episode) as [result tr].
  destruct (result !! "success") as [ok|]; [|reflexivity].
  destruct (truthy ok); [reflexivity|].
  destruct (App.failure_status result); reflexivity.
Qed.

Lemma fetch_events_head (w : world) (title season episode : string) :
  exists tr,
    (App.fetch_video_url w title season episode).2
      = EvFetch title season episode :: EvStart :: tr /\
    (forall a b c, EvFetch a b c ∉ tr).
Proof.
  pose proof (driver_stopped_once_with w Firefox App.user_agent title season episode)
    as H. cbv zeta in H. unfold App.fetch_video_url.
  destruct (playwright_start w) as [msg|].
  - destruct H as [-> _]. exists []. split; [reflexivity|].
    intros a b c Hin. apply elem_of_nil in Hin. exact Hin.
  - destruct H as (tr & -> & _ & _ & Hfetch).
    exists (tr ++ [EvStop]). split; [reflexivity|].
    intros a b c Hin. apply elem_of_app in Hin. destruct Hin as [Hin|Hin].
    + exact (Hfetch a b c Hin).
    + apply list_elem_of_singleton in Hin. discriminate Hin.
Qed.

(** X16.  The validation of [/api/video] is the only gate of the scan: the
    request causes events exactly when title, season and episode are
    present and not empty and season and episode parse as integers; then
    [fetch_video_url] is entered once, first, with the three strings as they
    were sent (not with the parsed numbers). *)
Theorem scan_iff_well_formed (w : world) (args : list (string * string)) :
  ((exists title season episode, well_formed_query w args title season episode)
   <-> (App.get_video_url w args).2 <> []) /\
  (forall title season episode,
     well_formed_query w args title season episode ->
     exists tr,
       (App.get_video_url w args).2 = EvFetch title season episode :: EvStart :: tr /\
       (forall a b c, EvFetch a b c ∉ tr)).
Proof.
  assert (Hhead : forall title season episode,
            well_formed_query w args title season episode ->
            exists tr,
              (App.get_video_url w args).2
                = EvFetch title season episode :: EvStart :: tr /\
              (forall a b c, EvFetch a b c ∉ tr)).
  { intros title season episode Hq.
    rewrite (get_video_url_events w args title season episode Hq).
    apply fetch_events_head. }
  split; [|exact Hhead]. split.
  - intros (title & season & episode & Hq).
    destruct (Hhead title season episode Hq) as (tr & -> & _). discriminate.
  - unfold App.get_video_url, well_formed_query, parses.
    destruct (App.args_get "title" args) as [t|]; [|intros H; destruct (H eq_refl)].
    destruct (App.args_get "season" args) as [s|]; [|intros H; destruct (H eq_refl)].
    destruct (App.args_get "episode" args) as [e|]; [|intros H; destruct (H eq_refl)].
    destruct (truthy_str t) eqn:Ht, (truthy_str s) eqn:Hs, (truthy_str e) eqn:He;
      cbn [negb orb];
      try (intros H; destruct (H eq_refl)).
    destruct (Py.int (int_max_str_digits w) s) as [n1|] eqn:H1;
      [|intros H; destruct (H eq_refl)].
    destruct (Py.int (int_max_str_digits w) e) as [n2|] eqn:H2;
      [|intros H; destruct (H eq_refl)].
    intros _. exists t, s, e. rewrite H1, H2.
    rewrite !bool_decide_eq_true_2 by (eexists; reflexivity).
    repeat split; assumption.
Qed.

(** X17.  Run as a script, [src/video.py] does not validate its arguments:
    with exactly three of them, whatever they are, it enters
    [fetch_video_url] with these strings and prints one line, the JSON of a
    fully populated result; with any other number of arguments it prints the
    two usage lines and calls nothing. *)
Theorem main_scans_any_three_arguments (w : world) (argv : list string) :
  match argv with
  | [_; animetitle; season; episode] =>
      exists result tr,
        Video.main w argv
          = ([PrintJson result], EvFetch animetitle season episode :: EvStart :: tr) /\
        result = (Video.fetch_video_url w animetitle season episode).1 /\
        fully_populated result
  | _ =>
      length argv <> 4%nat /\
      exists usage example,
        Video.main w argv = ([PrintText usage; PrintText example], [])
  end.
Proof.
  destruct argv as [|prog [|t [|s [|e [|extra rest]]]]];
    try (split; [simpl; lia | eexists _, _; reflexivity]).
  unfold Video.main.
  pose proof (driver_stopped_once_with w Chromium Video.user_agent t s e) as H.
  pose proof (fetch_result_populated w Chromium Video.user_agent t s e) as Hpop.
  cbv zeta in H.
  change (fetch_video_url_with w Chromium Video.user_agent App.VIDEO_RE_search
            App.make_slugs App.make_candidate_urls t s e)
    with (Video.fetch_video_url w t s e) in H, Hpop.
  destruct (Video.fetch_video_url w t s e) as [result tr]. cbn [fst snd] in *.
  destruct (playwright_start w) as [msg|].
  - destruct H as [-> _]. eexists _, _. split; [reflexivity|]. auto.
  - destruct H as (tr' & -> & _). eexists _, _. split; [reflexivity|]. auto.
Qed.

Lemma loop_outcome_none (w : world) (search : string -> option string)
    (n : nat) (candidates : list string) :
  (loop_outcome w search n candidates).2 = None ->
  forall k url, candidates !! k = Some url -> captures w search (n + k) url = false.
Proof.
  revert n. induction candidates as [|u rest IH]; intros n; simpl.
  - intros _ k url Hk. discriminate Hk.
  - destruct (first_match search (observed w n u)) as [m|] eqn:Hm; [discriminate|].
    specialize (IH (S n)).
    destruct (loop_outcome w search (S n) rest) as [visited f]. simpl.
    intros Hf [|k] url Hk.
    + injection Hk as <-. unfold captures. rewrite Nat.add_0_r, Hm. reflexivity.
    + replace (n + S k)%nat with (S n + k)%nat by lia. apply (IH Hf), Hk.
Qed.

(** The status that goes with each of the three results. *)
Lemma status_of_result (w : world) (args : list (string * string))
    (title season episode : string) :
  well_formed_query w args title season episode ->
  let result := (App.fetch_video_url w title season episode).1 in
  (forall m, result = found_result m ->
             (App.get_video_url w args).1 = Return (result, 200%Z)) /\
  (result = not_found_result ->
   (App.get_video_url w args).1 = Return (result, 404%Z)) /\
  (forall msg, result = error_result msg ->
               (App.get_video_url w args).1 =
                 Return (result, if Py.contains "No video URL found" msg
                                 then 404%Z else 500%Z)).
Proof.
  intros Hq result. unfold result.
  rewrite (get_video_url_well_formed w args title season episode Hq).
  destruct (App.fetch_video_url w title season episode) as [r tr]. cbn [fst].
  split; [|split].
  - intros m ->. reflexivity.
  - intros ->. reflexivity.
  - intros msg ->.
    change (error_result msg !! "success") with (Some (VBool false)).
    cbn [truthy]. rewrite failure_status_error. reflexivity.
Qed.

(** X18.  For a well-formed query, [/api/video] answers 200 exactly when
    none of the seven browser calls outside the candidate loop raises and
    some candidate's page sends a request matching [VIDEO_RE]. *)
Theorem success_iff_capture (w : world) (args : list (string * string))
    (title season episode : string) :
  well_formed_query w args title season episode ->
  ((exists body, (App.get_video_url w args).1 = Return (body, 200%Z)) <->
   (Forall (fun a => a = None) (scan_level_answers w Firefox App.user_agent) /\
    exists k url,
      candidates_of App.make_slugs App.make_candidate_urls title season episode !! k
        = Some url /\
      captures w App.VIDEO_RE_search k url = true)).
Proof.
  intros Hq.
  destruct (status_of_result w args title season episode Hq) as (H200 & H404 & H500).
  destruct (fetch_spec w Firefox App.user_agent App.VIDEO_RE_search App.make_slugs
              App.make_candidate_urls video_re_truthy title season episode)
    as (_ & _ & Hquiet).
  destruct (fetch_summary w Firefox App.user_agent title season episode)
    as (loop & Hfetch & _).
  fold (App.fetch_video_url w title season episode) in Hfetch, Hquiet.
  cbv zeta in H200, H404, H500, Hquiet.
  set (outcome := loop_outcome w App.VIDEO_RE_search 0
                    (candidates_of App.make_slugs App.make_candidate_urls
                       title season episode)) in *.
  split.
  - intros [body Hbody].
    assert (Hres : (App.fetch_video_url w title season episode).1
                   = match scan_result_of w Firefox App.user_agent outcome.2 with
                     | Return result => result
                     | Raise msg => error_result msg
                     end) by (rewrite Hfetch; reflexivity).
    destruct (scan_result_of w Firefox App.user_agent outcome.2) as [result|msg] eqn:Hscan.
    + revert Hscan. unfold scan_result_of, scan_level_answers, first_error.
      destruct (playwright_start w); [discriminate|].
      destruct (playwright_stop w); [discriminate|].
      destruct (launch w Firefox); [discriminate|].
      destruct (new_context w App.user_agent); [discriminate|].
      destruct (new_page w); [discriminate|].
      destruct (context_close w); [discriminate|].
      destruct (browser_close w); [discriminate|].
      intros [= <-]. split; [repeat constructor|].
      destruct (outcome.2) as [m|] eqn:Hm.
      * destruct (loop_outcome_found _ _ _ _ _ Hm) as (k & url & Hk & Hfm).
        exists k, url. split; [exact Hk|]. unfold captures.
        simpl in Hfm. rewrite Hfm. reflexivity.
      * rewrite (H404 Hres) in Hbody. discriminate Hbody.
    + rewrite (H500 msg Hres) in Hbody.
      destruct (Py.contains "No video URL found" msg); discriminate Hbody.
  - intros (Hq' & k & url & Hk & Hcap).
    specialize (Hquiet Hq').
    destruct (outcome.2) as [m|] eqn:Hm.
    + eexists. apply (H200 m Hquiet).
    + pose proof (loop_outcome_none _ _ _ _ Hm k url Hk) as Hc.
      change (0 + k)%nat with k in Hc. rewrite Hc in Hcap. discriminate Hcap.
Qed.

Lemma success_iff_capture_witness :
  well_formed_query third_candidate_world naruto_query "naruto" "1" "5" /\
  ((exists body,
      (App.get_video_url third_candidate_world naruto_query).1 = Return (body, 200%Z)) <->
   (Forall (fun a => a = None)
      (scan_level_answers third_candidate_world Firefox App.user_agent) /\
    exists k url,
      candidates_of App.make_slugs App.make_candidate_urls "naruto" "1" "5" !! k
        = Some url /\
      captures third_candidate_world App.VIDEO_RE_search k url = true)).
Proof.
  assert (Hq : well_formed_query third_candidate_world naruto_query "naruto" "1" "5")
    by (repeat split; reflexivity).
  split; [exact Hq|].
  apply (success_iff_capture third_candidate_world naruto_query "naruto" "1" "5" Hq).
Defined.

(** X19.  An exception raised outside the per-candidate [try] whose text
    does not contain [No video URL found] is caught by [fetch_video_url],
    which returns the dictionary with [success] false, the error
    [An error occurred: <text>] and the message [Failed to fetch video URL];
    [/api/video] answers it with status 500.  Such an exception can only
    come from one of the seven browser calls outside the candidate loop. *)
Theorem scan_exception_is_500 (w : world) (args : list (string * string))
    (title season episode msg : string) :
  well_formed_query w args title season episode ->
  app_scan_raises w title season episode msg ->
  Py.contains "No video URL found" msg = false ->
  In (Some msg) (scan_level_answers w Firefox App.user_agent) /\
  (App.fetch_video_url w title season episode).1 = error_result msg /\
  error_result msg !! "success" = Some (VBool false) /\
  error_result msg !! "error" = Some (VStr ("An error occurred: " +:+ msg)) /\
  error_result msg !! "message" = Some (VStr "Failed to fetch video URL") /\
  (App.get_video_url w args).1 = Return (error_result msg, 500%Z).
Proof.
  intros Hq Hraise Hphrase.
  destruct (scan_exception_status w args title season episode msg Hq Hraise)
    as (Hin & Hfetch & Hs & He & Hm & Hstatus).
  rewrite Hphrase in Hstatus. auto 10.
Qed.

Lemma scan_exception_is_500_witness :
  well_formed_query (launch_failure_world "BrowserType.launch: Executable doesn't exist")
    naruto_query "naruto" "1" "5" /\
  app_scan_raises (launch_failure_world "BrowserType.launch: Executable doesn't exist")
    "naruto" "1" "5" "BrowserType.launch: Executable doesn't exist" /\
  Py.contains "No video URL found" "BrowserType.launch: Executable doesn't exist"
    = false /\
  (App.get_video_url
     (launch_failure_world "BrowserType.launch: Executable doesn't exist")
     naruto_query).1 =
    Return (error_result "BrowserType.launch: Executable doesn't exist", 500%Z).
Proof.
  assert (Hq : well_formed_query
                 (launch_failure_world "BrowserType.launch: Executable doesn't exist")
                 naruto_query "naruto" "1" "5")
    by (repeat split; reflexivity).
  assert (Hr : app_scan_raises
                 (launch_failure_world "BrowserType.launch: Executable doesn't exist")
                 "naruto" "1" "5" "BrowserType.launch: Executable doesn't exist")
    by (eexists; reflexivity).
  split; [exact Hq|]. split; [exact Hr|]. split; [reflexivity|].
  apply (scan_exception_is_500 _ _ _ _ _ _ Hq Hr). reflexivity.
Defined.

(** ** The first slug beyond U+00FF *)

Example wide_make_slugs_one_piece :
  Wide.make_slugs (Wide.of_string " One  Piece!! ")
  = [Wide.of_string "one-piece"; Wide.of_string "one-piece"].
Proof. reflexivity. Qed.

Section WideAgrees.

Variable p : ascii -> bool.
Variable P : Wide.codepoint -> bool.
Hypothesis P_low : forall a, P (Wide.Low a) = p a.

Lemma wide_is_empty (s : string) :
  Wide.is_empty (Wide.of_string s) = Py.is_empty s.
Proof. destruct s; reflexivity. Qed.

Lemma wide_lstrip (s : string) :
  Wide.lstrip P (Wide.of_string s) = Wide.of_string (Py.lstrip p s).
Proof.
  induction s as [|c s IH]; [reflexivity|].
  change (Wide.of_string (String c s)) with (Wide.Low c :: Wide.of_string s).
  cbn [Wide.lstrip Py.lstrip]. rewrite P_low, IH.
  destruct (p c); reflexivity.
Qed.

Lemma wide_rstrip (s : string) :
  Wide.rstrip P (Wide.of_string s) = Wide.of_string (Py.rstrip p s).
Proof.
  induction s as [|c s IH]; [reflexivity|].
  change (Wide.of_string (String c s)) with (Wide.Low c :: Wide.of_string s).
  cbn [Wide.rstrip Py.rstrip]. rewrite P_low, IH, wide_is_empty.
  destruct (Py.is_empty (Py.rstrip p s) && p c); reflexivity.
Qed.

Lemma wide_strip (s : string) :
  Wide.strip P (Wide.of_string s) = Wide.of_string (Py.strip p s).
Proof. unfold Wide.strip, Py.strip. rewrite wide_lstrip, wide_rstrip. reflexivity. Qed.

Lemma wide_sub_delete (s : string) :
  Wide.sub_delete P (Wide.of_string s) = Wide.of_string (Py.sub_delete p s).
Proof.
  induction s as [|c s IH]; [reflexivity|].
  change (Wide.of_string (String c s)) with (Wide.Low c :: Wide.of_string s).
  cbn [Wide.sub_delete Py.sub_delete]. rewrite P_low, IH.
  destruct (p c); reflexivity.
Qed.

Lemma wide_of_string_append (a b : string) :
  Wide.of_string (a +:+ b) = Wide.of_string a ++ Wide.of_string b.
Proof. unfold Wide.of_string. rewrite chars_append. apply map_app. Qed.

Lemma wide_sub_runs_from (r : string) (in_run : bool) (s : string) :
  Wide.sub_runs_from P (Wide.of_string r) in_run (Wide.of_string s)
  = Wide.of_string (Py.sub_runs_from p r in_run s).
Proof.
  revert in_run. induction s as [|c s IH]; intros in_run; [reflexivity|].
  change (Wide.of_string (String c s)) with (Wide.Low c :: Wide.of_string s).
  cbn [Wide.sub_runs_from Py.sub_runs_from]. rewrite P_low.
  destruct (p c).
  - destruct in_run; rewrite IH; [reflexivity|].
    rewrite wide_of_string_append. reflexivity.
  - rewrite IH. reflexivity.
Qed.

End WideAgrees.

Lemma wide_lower (s : string) :
  Wide.lower (Wide.of_string s) = Wide.of_string (Py.lower s).
Proof.
  induction s as [|c s IH]; [reflexivity|].
  change (Wide.of_string (String c s)) with (Wide.Low c :: Wide.of_string s).
  unfold Wide.lower in *. cbn [map Py.lower]. rewrite IH. reflexivity.
Qed.

Lemma wide_quote_plus (s : string) :
  Wide.quote_plus (Wide.of_string s) = Wide.of_string (Py.quote_plus s).
Proof.
  induction s as [|c s IH]; [reflexivity|].
  change (Wide.of_string (String c s)) with (Wide.Low c :: Wide.of_string s).
  cbn [Wide.quote_plus Py.quote_plus Wide.quote_char].
  rewrite IH, wide_of_string_append. reflexivity.
Qed.

(** On the titles over U+0000..U+00FF the wider [make_slugs] is the
    [make_slugs] of the two files. *)
Lemma wide_make_slugs_agrees (title : string) :
  Wide.make_slugs (Wide.of_string title) = map Wide.of_string (App.make_slugs title) /\
  Wide.make_slugs (Wide.of_string title) = map Wide.of_string (Video.make_slugs title).
Proof.
  assert (H : Wide.make_slugs (Wide.of_string title)
              = map Wide.of_string (App.make_slugs title)).
  { unfold Wide.make_slugs, App.make_slugs, Wide.sub_runs, Py.sub_runs. cbv zeta.
    rewrite (wide_strip Py.isspace Wide.isspace) by reflexivity.
    rewrite wide_lower.
    rewrite (wide_sub_delete
               (fun c => negb (Py.isword c || Py.isspace c || Py.ishyphen c)))
      by reflexivity.
    rewrite (wide_sub_runs_from Py.isspace Wide.isspace) by reflexivity.
    rewrite (wide_sub_runs_from Py.ishyphen Wide.ishyphen) by reflexivity.
    rewrite (wide_strip Py.ishyphen Wide.ishyphen) by reflexivity.
    rewrite wide_quote_plus. reflexivity. }
  split; exact H.
Qed.

